(** * Cloak client: buffered pipe (package multiplex) and TLS handshake
      (package client)

    A shallow embedding of [bufferedPipe] (Read, WriteTo, Write, Close and
    the two setters) and of the client-side handshake code of
    [internal/client/TLS.go], with the properties of the specification
    stated over them.

    Conventions.
    - Go [int] values are [Z]; byte slices are [list byte]; Go strings are
      [string].
    - A method of the pipe holds the mutex from its first line until it
      returns or parks in [rwCond.Wait]; one such stretch is modelled as one
      function (a "cycle"), which returns the new pipe, the effects it
      issued (broadcasts, timers armed) and how it left the lock.
    - The scheduler of the Go runtime is a list of decisions fed to an
      executable step function. *)

From Stdlib Require Import ZArith List String Ascii Bool Lia.
From stdpp Require Import base option list.
Import ListNotations.
Open Scope Z_scope.

Abbreviation byte := Byte.byte.

(** ** Go slices *)

(** [s[lo:hi]] on a slice whose capacity is its length; [None] stands for
    the run-time panic "slice bounds out of range". *)
Definition slice {A} (lo hi : nat) (s : list A) : option (list A) :=
  if ((lo <=? hi)%nat && (hi <=? length s)%nat)%bool
  then Some (firstn (hi - lo) (skipn lo s))
  else None.

(** [copy(dst, src)]: overwrite the first [min (len dst) (len src)]
    elements of [dst]; the result is the new contents of [dst]. *)
Definition copy {A} (dst src : list A) : list A :=
  firstn (length dst) src ++ skipn (length src) dst.

Module Multiplex.

(** ** Constants and errors *)

(** [const BUF_SIZE_LIMIT = 1 << 20 * 500]: in Go [<<] and [*] have the same
    precedence and associate to the left. *)
Definition BUF_SIZE_LIMIT : Z := Z.shiftl 1 20 * 500.

Inductive error :=
| EOF              (* io.EOF *)
| ErrClosedPipe    (* io.ErrClosedPipe *)
| ErrShortWrite    (* io.ErrShortWrite *)
| ErrTimeout       (* var ErrTimeout = errors.New("deadline exceeded") *)
| SinkError (msg : string).  (* whatever an io.Writer reports *)

(** ** package time *)

(** An instant is a number of nanoseconds counted from the zero instant of
    [time.Time]; a [time.Duration] is an int64 of nanoseconds. *)
Definition Time := Z.
Definition Duration := Z.

Definition minDuration : Duration := - 2 ^ 63.
Definition maxDuration : Duration := 2 ^ 63 - 1.

Definition IsZero (t : Time) : bool := t =? 0.

(** [t.Sub(u)] saturates at the ends of [Duration]. *)
Definition Sub (t u : Time) : Duration :=
  Z.max minDuration (Z.min maxDuration (t - u)).

(** [time.Until(t)] read at instant [now]. *)
Definition Until (now t : Time) : Duration := Sub t now.

(** [t.Add(d)]. *)
Definition Add (t : Time) (d : Duration) : Time := t + d.

(** ** bytes.Buffer: the unread bytes *)

Module Buffer.

Definition Len (b : list byte) : Z := Z.of_nat (length b).

(** [b.Read(target)] with [len(target) = n]: bytes copied into the target,
    what is left in the buffer, the error. *)
Definition Read (b : list byte) (n : nat) : list byte * list byte * option error :=
  match b with
  | [] => ([], [], if (n =? 0)%nat then None else Some EOF)
  | _ => (firstn n b, skipn n b, None)
  end.

(** [b.Write(input)]: always appends everything. *)
Definition Write (b input : list byte) : list byte * Z * option error :=
  (b ++ input, Z.of_nat (length input), None).

End Buffer.

(** ** The pipe *)

Record bufferedPipe := mkPipe {
  buf : option (list byte);   (* *bytes.Buffer, nil until first use *)
  closed : bool;
  rDeadline : Time;
  wtTimeout : Duration
}.

Definition NewBufferedPipe : bufferedPipe := mkPipe None false 0 0.

Definition set_buf (b : list byte) (p : bufferedPipe) : bufferedPipe :=
  mkPipe (Some b) (closed p) (rDeadline p) (wtTimeout p).
Definition set_closed (c : bool) (p : bufferedPipe) : bufferedPipe :=
  mkPipe (buf p) c (rDeadline p) (wtTimeout p).
Definition set_rDeadline (t : Time) (p : bufferedPipe) : bufferedPipe :=
  mkPipe (buf p) (closed p) t (wtTimeout p).
Definition set_wtTimeout (d : Duration) (p : bufferedPipe) : bufferedPipe :=
  mkPipe (buf p) (closed p) (rDeadline p) d.

(** [if p.buf == nil { p.buf = new(bytes.Buffer) }] *)
Definition ensureBuf (p : bufferedPipe) : bufferedPipe :=
  match buf p with
  | None => set_buf [] p
  | Some _ => p
  end.

(** The unread bytes; a buffer not yet allocated holds none. *)
Definition contents (p : bufferedPipe) : list byte := default [] (buf p).

(** What a stretch under the lock does besides changing the pipe. *)
Inductive effect :=
| Broadcast                    (* p.rwCond.Broadcast() *)
| AfterFunc (d : Duration).    (* time.AfterFunc(d, p.rwCond.Broadcast) *)

(** Values handed back to the caller. *)
Inductive retval :=
| RetRead (data : list byte) (err : option error)   (* n = len data *)
| RetWriteTo (n : Z) (err : option error)
| RetWrite (n : Z) (err : option error)
| RetClose (err : option error)
| RetVoid.

(** How a cycle leaves the lock: it returns, it parks in [rwCond.Wait], or
    the goroutine panics. *)
Inductive exit :=
| Return (r : retval)
| CondWait
| Panicked.

Definition cycle : Type := bufferedPipe * list effect * exit.

(** The deadline test shared by Read and WriteTo: [inl] is the early return,
    [inr d] the duration until the deadline when one is set. *)
Definition deadlineCheck (now : Time) (p : bufferedPipe) : error + option Duration :=
  if IsZero (rDeadline p) then inr None
  else
    let d := Until now (rDeadline p) in
    if d <=? 0 then inl ErrTimeout else inr (Some d).

(** One pass of the [for] loop of [Read], lines 44-62, followed by lines
    63-67 when the loop breaks. [n] is [len(target)]. *)
Definition Read_cycle (now : Time) (n : nat) (p : bufferedPipe) : cycle :=
  match buf p with
  | None => (p, [], Panicked)
  | Some b =>
    if (closed p && (Buffer.Len b =? 0))%bool then
      (p, [], Return (RetRead [] (Some EOF)))
    else
      match deadlineCheck now p with
      | inl e => (p, [], Return (RetRead [] (Some e)))
      | inr od =>
        let armed := match od with Some d => [AfterFunc d] | None => [] end in
        if 0 <? Buffer.Len b then
          let '(data, rest, err) := Buffer.Read b n in
          (set_buf rest p, armed ++ [Broadcast], Return (RetRead data err))
        else (p, armed, CondWait)
      end
  end.

(** One pass of the [for] loop of [Write], lines 123-135, followed by lines
    136-140 when the loop breaks. *)
Definition Write_cycle (input : list byte) (p : bufferedPipe) : cycle :=
  match buf p with
  | None => (p, [], Panicked)
  | Some b =>
    if closed p then (p, [], Return (RetWrite 0 (Some ErrClosedPipe)))
    else if Buffer.Len b <=? BUF_SIZE_LIMIT then
      let '(b', n, err) := Buffer.Write b input in
      (set_buf b' p, [Broadcast], Return (RetWrite n err))
    else (p, [], CondWait)
  end.

(** [Close], [SetReadDeadline], [SetWriteToTimeout]: no loop. *)
Definition Close (p : bufferedPipe) : cycle :=
  (set_closed true p, [Broadcast], Return (RetClose None)).

Definition SetReadDeadline (t : Time) (p : bufferedPipe) : cycle :=
  (set_rDeadline t p, [Broadcast], Return RetVoid).

Definition SetWriteToTimeout (d : Duration) (p : bufferedPipe) : cycle :=
  (set_wtTimeout d p, [Broadcast], Return RetVoid).

(** A caller that calls Read again and again, each call at its own
    instant and with its own target size, for as long as the calls return
    data: the bytes it collected, in order, and the pipe it leaves. *)
Fixpoint readMany (calls : list (Time * nat)) (p : bufferedPipe)
  : list byte * bufferedPipe :=
  match calls with
  | [] => ([], p)
  | (now, n) :: rest =>
    match Read_cycle now n (ensureBuf p) with
    | (p', _, Return (RetRead data None)) =>
      let '(more, q) := readMany rest p' in (data ++ more, q)
    | _ => ([], p)
    end
  end.

(** ** WriteTo and the sink *)

Section Sink.

(** The [io.Writer] handed to [WriteTo]: a state and a [Write] method that
    reports how many bytes it took. *)
Context {W : Type}.
Variable sinkWrite : list byte -> W -> W * nat * option error.

(** [b.WriteTo(w)] of bytes.Buffer on a non-empty buffer: one call of
    [w.Write] with all unread bytes. [None] is the panic "invalid Write
    count". *)
Definition Buffer_WriteTo (b : list byte) (w : W)
  : option (list byte * W * Z * option error) :=
  let '(w', m, e) := sinkWrite b w in
  if (length b <? m)%nat then None
  else
    match e with
    | Some _ => Some (skipn m b, w', Z.of_nat m, e)
    | None =>
      if (m =? length b)%nat then Some ([], w', Z.of_nat m, None)
      else Some (skipn m b, w', Z.of_nat m, Some ErrShortWrite)
    end.

(** One pass of the [for] loop of [WriteTo], lines 78-112. [acc] is the
    named result [n] carried from one pass to the next. Both clock readings
    of a pass ([time.Until], [time.Now]) see the same instant. *)
Definition WriteTo_cycle (now : Time) (w : W) (acc : Z) (p : bufferedPipe)
  : cycle * W * Z :=
  match buf p with
  | None => ((p, [], Panicked), w, acc)
  | Some b =>
    if (closed p && (Buffer.Len b =? 0))%bool then
      ((p, [], Return (RetWriteTo 0 (Some EOF))), w, acc)
    else
      match deadlineCheck now p with
      | inl e => ((p, [], Return (RetWriteTo 0 (Some e))), w, acc)
      | inr od =>
        let armed1 :=
          match od with
          | Some d => if wtTimeout p =? 0 then [AfterFunc d] else []
          | None => []
          end in
        let '(p1, armed2) :=
          if wtTimeout p =? 0 then (p, [])
          else (set_rDeadline (Add now (wtTimeout p)) p, [AfterFunc (wtTimeout p)]) in
        if 0 <? Buffer.Len b then
          match Buffer_WriteTo b w with
          | None => ((p1, armed1 ++ armed2, Panicked), w, acc)
          | Some (rest, w', written, er) =>
            let acc' := acc + written in
            match er with
            | Some e =>
              ((set_buf rest p1, armed1 ++ armed2 ++ [Broadcast],
                Return (RetWriteTo acc' (Some e))), w', acc')
            | None =>
              ((set_buf rest p1, armed1 ++ armed2 ++ [Broadcast], CondWait), w', acc')
            end
          end
        else ((p1, armed1 ++ armed2, CondWait), w, acc)
      end
  end.

(** ** Goroutines sharing one pipe *)

Inductive call :=
| CallRead (n : nat)                 (* p.Read(target), len(target) = n *)
| CallWriteTo (w : W) (acc : Z)      (* p.WriteTo(w), with n so far *)
| CallWrite (input : list byte)
| CallClose
| CallSetReadDeadline (t : Time)
| CallSetWriteToTimeout (d : Duration).

(** Where a goroutine stands in its call.
    [Parking]: it still holds the mutex and is about to call [rwCond.Wait]
    (timers of this pass are armed, it is not on the notify list yet).
    [Waiting]: inside [Wait], on the notify list, mutex released.
    [Woken]: notified; it has to take the mutex again to continue. *)
Inductive thread :=
| Entering (c : call)
| Parking (c : call)
| Waiting (c : call)
| Woken (c : call)
| Returned (r : retval)
| Crashed.

(** Lines run once on entry, before the loop. *)
Definition enter (c : call) (p : bufferedPipe) : bufferedPipe :=
  match c with
  | CallRead _ | CallWriteTo _ _ | CallWrite _ => ensureBuf p
  | _ => p
  end.

(** One stretch under the lock of call [c]; the call comes back with its
    local state updated. *)
Definition body (now : Time) (c : call) (p : bufferedPipe) : cycle * call :=
  match c with
  | CallRead n => (Read_cycle now n p, c)
  | CallWriteTo w acc =>
    let '(r, w', acc') := WriteTo_cycle now w acc p in (r, CallWriteTo w' acc')
  | CallWrite input => (Write_cycle input p, c)
  | CallClose => (Close p, c)
  | CallSetReadDeadline t => (SetReadDeadline t p, c)
  | CallSetWriteToTimeout d => (SetWriteToTimeout d p, c)
  end.

Record system := mkSystem {
  pipe : bufferedPipe;
  clock : Time;
  timers : list Time;      (* instants at which an armed timer may fire *)
  threads : list thread
}.

Definition wake (t : thread) : thread :=
  match t with
  | Waiting c => Woken c
  | _ => t
  end.

(** Goroutine inside call [c] and not running: about to wait, waiting, or
    woken and queueing for the mutex. *)
Definition blocked (c : call) (t : thread) : Prop :=
  t = Parking c \/ t = Waiting c \/ t = Woken c.

(** A goroutine is inside a call only after the entry lines of that call
    ran, so the buffer is allocated; see [started_allocated]. *)
Definition allocated_when_blocked (p : bufferedPipe) (ts : list thread) : Prop :=
  forall i t c, ts !! i = Some t -> blocked c t -> is_Some (buf p).

Definition is_parking (t : thread) : bool :=
  match t with Parking _ => true | _ => false end.

(** The mutex is held exactly by a goroutine that is between its last test
    and [Wait]; every other stretch under the lock is one step. *)
Definition lock_free (ts : list thread) : bool := forallb (fun t => negb (is_parking t)) ts.

Definition apply_effect (now : Time) (e : effect) (tt : list Time * list thread)
  : list Time * list thread :=
  match e with
  | Broadcast => (tt.1, wake <$> tt.2)
  | AfterFunc d => (tt.1 ++ [now + d], tt.2)
  end.

Definition apply_effects (now : Time) (es : list effect) (tt : list Time * list thread)
  : list Time * list thread :=
  fold_left (fun acc e => apply_effect now e acc) es tt.

Definition after_exit (x : exit) (c : call) : thread :=
  match x with
  | Return r => Returned r
  | CondWait => Parking c
  | Panicked => Crashed
  end.

(** Thread [i] runs call [c] for one stretch, starting from pipe [p0]. *)
Definition run_thread (s : system) (i : nat) (c : call) (p0 : bufferedPipe) : system :=
  let '((p', es, x), c') := body (clock s) c p0 in
  let '(tm, ts) := apply_effects (clock s) es (timers s, threads s) in
  mkSystem p' (clock s) tm (<[i := after_exit x c']> ts).

(** What the scheduler and the clock may do next. *)
Inductive decision :=
| Tick (dt : Z)     (* time passes *)
| Fire (k : nat)    (* the k-th armed timer runs its Broadcast *)
| Run (i : nat)     (* goroutine i takes the mutex and runs one stretch *)
| Park (i : nat).   (* goroutine i enters Wait and releases the mutex *)

Definition step (d : decision) (s : system) : option system :=
  match d with
  | Tick dt =>
    if 0 <=? dt then Some (mkSystem (pipe s) (clock s + dt) (timers s) (threads s))
    else None
  | Fire k =>
    match timers s !! k with
    | Some t =>
      if t <=? clock s
      then Some (mkSystem (pipe s) (clock s) (delete k (timers s)) (wake <$> threads s))
      else None
    | None => None
    end
  | Run i =>
    if lock_free (threads s) then
      match threads s !! i with
      | Some (Entering c) => Some (run_thread s i c (enter c (pipe s)))
      | Some (Woken c) => Some (run_thread s i c (pipe s))
      | _ => None
      end
    else None
  | Park i =>
    match threads s !! i with
    | Some (Parking c) =>
      Some (mkSystem (pipe s) (clock s) (timers s) (<[i := Waiting c]> (threads s)))
    | _ => None
    end
  end.

Fixpoint exec (ds : list decision) (s : system) : option system :=
  match ds with
  | [] => Some s
  | d :: ds' =>
    match step d s with
    | Some s' => exec ds' s'
    | None => None
    end
  end.



(** The writer that Close found waiting: from then on it is runnable or has
    returned the closed-pipe error. *)
Definition released_writer (i : nat) (input : list byte) (s : system) : Prop :=
  closed (pipe s) = true /\ is_Some (buf (pipe s)) /\
  (threads s !! i = Some (Woken (CallWrite input)) \/
   threads s !! i = Some (Returned (RetWrite 0 (Some ErrClosedPipe)))).

End Sink.

End Multiplex.

Module Client.

(** ** Errors, panics, and the monad of the handshake code *)

(** An [error] value of a library the client calls. *)
Inductive error := Err (msg : string).

Inductive panic :=
| IndexOutOfRange (i : nat) (len : nat)   (* runtime error: index out of range *)
| TypeAssertion (i : nat)                 (* interface conversion failed on Extensions[i] *)
| BadRandArgument (n : Z).                (* crypto/rand: argument to Int is <= 0 *)

(** ** utls, as far as the client looks into it *)

Definition X25519 : Z := 29.   (* utls.X25519, a CurveID *)

Record KeyShare := mkKeyShare {
  Group : Z;
  Data : list byte
}.

(** The dynamic type of a [utls.TLSExtension]. *)
Inductive TLSExtension :=
| KeyShareExtension (KeyShares : list KeyShare)
| OtherExtension (id : Z).

Definition isKeyShare (e : TLSExtension) : bool :=
  match e with KeyShareExtension _ => true | OtherExtension _ => false end.

Inductive ClientHelloID :=
| HelloZero            (* zero value of the struct *)
| HelloChrome_Auto
| HelloFirefox_Auto
| HelloSafari_Auto.

(** The part of [utls.UConn] the client reads or writes. *)
Record UConn := mkUConn {
  ServerName : string;              (* Config.ServerName *)
  ClientHelloID_ : ClientHelloID;
  Extensions : list TLSExtension;
  HelloRandom : list byte;          (* HandshakeState.Hello.Random *)
  HelloSessionId : list byte;       (* HandshakeState.Hello.SessionId *)
  HelloRaw : list byte              (* HandshakeState.Hello.Raw *)
}.

Definition set_Extensions (e : list TLSExtension) (u : UConn) : UConn :=
  mkUConn (ServerName u) (ClientHelloID_ u) e (HelloRandom u) (HelloSessionId u) (HelloRaw u).
Definition set_HelloSessionId (sid : list byte) (u : UConn) : UConn :=
  mkUConn (ServerName u) (ClientHelloID_ u) (Extensions u) (HelloRandom u) sid (HelloRaw u).

(** [utls.UClient(&fakeConn, &utls.Config{ServerName: name}, helloID)] *)
Definition UClient (name : string) (helloID : ClientHelloID) : UConn :=
  mkUConn name helloID [] [] [] [].

(** ** Data of the client *)

(** [type browser int] with [chrome = iota; firefox; safari]. *)
Definition browser := Z.
Definition chrome : browser := 0.
Definition firefox : browser := 1.
Definition safari : browser := 2.

Record clientHelloFields := mkFields {
  random : list byte;
  sessionId : list byte;
  x25519KeyShare : list byte;
  serverName : string
}.

Definition set_serverName (n : string) (f : clientHelloFields) : clientHelloFields :=
  mkFields (random f) (sessionId f) (x25519KeyShare f) n.

(** [authenticationPayload] of the client's auth code. *)
Record authenticationPayload := mkPayload {
  randPubKey : list byte;          (* [32]byte *)
  ciphertextWithTag : list byte    (* [64]byte *)
}.

Definition topLevelDomains : list string :=
  ["com"; "net"; "org"; "it"; "fr"; "me"; "ru"; "cn"; "es"; "tr"; "top"; "xyz"; "info"]%string.

(** ** What the handshake calls outside this file *)

(** [World] is everything outside the function: the transport, the entropy
    sources, the clock. Each operation takes the world and gives it back. *)
Class Externals (World : Type) := {
  AuthInfo : Type;
  MockDomain : AuthInfo -> string;
  makeAuthenticationPayload : AuthInfo -> World -> authenticationPayload * list byte * World;
  (** [cryptoRand.Int(cryptoRand.Reader, big.NewInt(n))] for [n > 0] *)
  cryptoRand_Int : Z -> World -> (Z + error) * World;
  (** [rand.Seed(time.Now().UnixNano()); rand.Intn(n)] for [n > 0] *)
  rand_Intn : Z -> World -> Z * World;
  (** both draw from [0, n) *)
  cryptoRand_Int_range : forall n w v w',
    0 < n -> cryptoRand_Int n w = (inl v, w') -> 0 <= v < n;
  rand_Intn_range : forall n w, 0 < n -> 0 <= (rand_Intn n w).1 < n;
  (** the rune-by-rune tail of [strings.EqualFold], entered at the first
      byte that is not ASCII *)
  equalFoldUnicode : string -> string -> bool;
  BuildHandshakeState : UConn -> World -> UConn * option error * World;
  SetClientRandom : list byte -> UConn -> UConn * option error;
  (** [common.AddRecordLayer(ch, common.Handshake, common.VersionTLS11)] *)
  AddRecordLayer : list byte -> list byte;
  (** [rawConn.Write(b)] *)
  connWrite : list byte -> World -> option error * World;
  (** [tls.Read(buf)] with [len(buf) = n]: the bytes stored into the buffer
      from its start, and the error *)
  tlsRead : nat -> World -> list byte * option error * World;
  AESGCMDecrypt : list byte -> list byte -> list byte -> list byte * option error
}.

(** Calls that leave the process, in the order they happen. *)
Inductive event :=
| EvBuildHandshakeState (name : string)   (* with the Config.ServerName in force *)
| EvWrite (b : list byte)                 (* rawConn.Write(b) *)
| EvRead                                  (* tls.Read(buf) *)
| EvDecrypt (nonce key ciphertext : list byte).

Section WithWorld.

Context {World : Type} `{Ext : Externals World}.

Record state := mkState {
  world : World;
  log : list event
}.

Inductive outcome (A : Type) :=
| Ok (a : A) (st : state)
| Panic (p : panic).
Arguments Ok {A} a st.
Arguments Panic {A} p.

Definition M (A : Type) : Type := state -> outcome A.

Definition ret {A} (a : A) : M A := fun st => Ok a st.

Definition bind {A B} (m : M A) (k : A -> M B) : M B :=
  fun st =>
    match m st with
    | Ok a st' => k a st'
    | Panic p => Panic p
    end.

Definition throw {A} (p : panic) : M A := fun _ => Panic p.

Definition emit (e : event) : M unit :=
  fun st => Ok tt (mkState (world st) (log st ++ [e])).

Definition liftW {A} (f : World -> A * World) : M A :=
  fun st => let '(a, w) := f (world st) in Ok a (mkState w (log st)).

Notation "x <- m ;; k" := (bind m (fun x => k))
  (at level 20, m at level 99, k at level 200, only parsing).
Notation "' pat <- m ;; k" := (bind m (fun x => match x with pat => k end))
  (at level 20, pat pattern, m at level 99, k at level 200, only parsing).

(** A computation that only adds to the log. *)
Definition grows {A} (m : M A) : Prop :=
  forall st a st', m st = Ok a st' -> log st `prefix_of` log st'.

(** ** strings.EqualFold *)

Definition isUpperByte (c : ascii) : bool :=
  let n := nat_of_ascii c in ((65 <=? n) && (n <=? 90))%nat.

(** The byte loop of [strings.EqualFold]: equal bytes, or an upper-case
    letter against its lower-case form; at the first byte >= 0x80 the rest
    is compared rune by rune. *)
Fixpoint EqualFold (s t : string) : bool :=
  match s, t with
  | String sr s', String tr t' =>
    let a := nat_of_ascii sr in
    let b := nat_of_ascii tr in
    if ((128 <=? a) || (128 <=? b))%nat then equalFoldUnicode s t
    else if (a =? b)%nat then EqualFold s' t'
    else
      let lo := Nat.min a b in
      let hi := Nat.max a b in
      if ((65 <=? lo) && (lo <=? 90) && (hi =? lo + 32))%nat
      then EqualFold s' t'
      else false
  | EmptyString, EmptyString => true
  | _, _ => false
  end.

(** Case-insensitive equality of an ASCII string with a lower-case word,
    said without EqualFold: lower every upper-case letter and compare. *)
Definition lowerCode (n : nat) : nat :=
  if ((65 <=? n) && (n <=? 90))%nat then (n + 32)%nat else n.

Definition foldsTo (s word : string) : Prop :=
  List.map (fun c => lowerCode (nat_of_ascii c)) (list_ascii_of_string s)
  = List.map nat_of_ascii (list_ascii_of_string word).

(** ** randInt, randItem, randomServerName *)

Definition randInt (n : Z) : M Z :=
  if n <=? 0 then throw (BadRandArgument n)
  else
    r <- liftW (cryptoRand_Int n) ;;
    match r with
    | inl size => ret size
    | inr _ => liftW (rand_Intn n)
    end.

Definition randItem (list : list string) : M string :=
  i <- randInt (Z.of_nat (length list)) ;;
  match list !! Z.to_nat i with
  | Some x => if 0 <=? i then ret x else throw (IndexOutOfRange 0 (length list))
  | None => throw (IndexOutOfRange (Z.to_nat i) (length list))
  end.

(** Conversion [byte(x)] of an int. *)
Definition byte_of_int (x : Z) : byte :=
  byte_of_ascii (ascii_of_N (Z.to_N (x mod 256))).

Definition int_of_char (c : ascii) : Z := Z.of_nat (nat_of_ascii c).

(** ['a' <= c <= 'z'] *)
Definition isLowerLetter (c : ascii) : bool :=
  ((97 <=? N_of_ascii c) && (N_of_ascii c <=? 122))%N.

(** [for i := range name { name[i] = byte(int('a') + randInt(charNum)) }],
    with [todo] elements still to fill. *)
Fixpoint fillName (charNum : Z) (todo : nat) : M (list byte) :=
  match todo with
  | O => ret []
  | S k =>
    r <- randInt charNum ;;
    rest <- fillName charNum k ;;
    ret (byte_of_int (int_of_char "a" + r) :: rest)
  end.

Definition randomServerName : M string :=
  let charNum := int_of_char "z" - int_of_char "a" + 1 in
  r <- randInt 10 ;;
  let size := 3 + r in
  name <- fillName charNum (Z.to_nat size) ;;
  tld <- randItem topLevelDomains ;;
  ret (string_of_list_byte name ++ "." ++ tld)%string.

(** ** buildClientHello *)

Definition helloIDOf (b : browser) : ClientHelloID :=
  if b =? chrome then HelloChrome_Auto
  else if b =? firefox then HelloFirefox_Auto
  else if b =? safari then HelloSafari_Auto
  else HelloZero.

(** [for j, keyShare := range ext.KeyShares] from index [j] on. *)
Fixpoint rangeKeyShares (j : nat) (ks : list KeyShare) (keyShareIndex : nat) : nat :=
  match ks with
  | [] => keyShareIndex
  | keyShare :: rest =>
    rangeKeyShares (S j) rest (if Group keyShare =? X25519 then j else keyShareIndex)
  end.

(** [for i, ext := range uclient.Extensions] from index [i] on. *)
Fixpoint rangeExtensions (i : nat) (exts : list TLSExtension)
    (extIndex keyShareIndex : nat) : nat * nat :=
  match exts with
  | [] => (extIndex, keyShareIndex)
  | KeyShareExtension ks :: rest =>
    rangeExtensions (S i) rest i (rangeKeyShares 0 ks keyShareIndex)
  | OtherExtension _ :: rest =>
    rangeExtensions (S i) rest extIndex keyShareIndex
  end.

(** Lines 106-118: both indices start at zero. *)
Definition findKeyShare (exts : list TLSExtension) : nat * nat :=
  rangeExtensions 0 exts 0%nat 0%nat.

(** Line 119:
    [copy(Extensions[extIndex].(KeyShareExtension).KeyShares[keyShareIndex].Data, data)],
    the assertion being on the pointer type. *)
Definition overwriteKeyShare (exts : list TLSExtension) (extIndex keyShareIndex : nat)
    (data : list byte) : panic + list TLSExtension :=
  match exts !! extIndex with
  | None => inl (IndexOutOfRange extIndex (length exts))
  | Some (OtherExtension _) => inl (TypeAssertion extIndex)
  | Some (KeyShareExtension ks) =>
    match ks !! keyShareIndex with
    | None => inl (IndexOutOfRange keyShareIndex (length ks))
    | Some k =>
      inr (<[extIndex :=
               KeyShareExtension
                 (<[keyShareIndex := mkKeyShare (Group k) (copy (Data k) data)]> ks)]> exts)
    end
  end.

Definition buildState (u : UConn) : M (UConn * option error) :=
  _ <- emit (EvBuildHandshakeState (ServerName u)) ;;
  liftW (fun w => let '(u', e, w') := BuildHandshakeState u w in ((u', e), w')).

Definition zeros (n : nat) : list byte := repeat Byte.x00 n.

Definition buildClientHello (b : browser) (fields : clientHelloFields)
  : M (list byte * option error) :=
  let helloID := helloIDOf b in
  let uclient := UClient (serverName fields) helloID in
  '(uclient, err) <- buildState uclient ;;
  match err with
  | Some e => ret ([], Some e)
  | None =>
    let '(uclient, err) := SetClientRandom (random fields) uclient in
    match err with
    | Some e => ret ([], Some e)
    | None =>
      let uclient := set_HelloSessionId (copy (zeros 32) (sessionId fields)) uclient in
      let '(extIndex, keyShareIndex) := findKeyShare (Extensions uclient) in
      match overwriteKeyShare (Extensions uclient) extIndex keyShareIndex
              (x25519KeyShare fields) with
      | inl p => throw p
      | inr exts =>
        let uclient := set_Extensions exts uclient in
        '(uclient, err) <- buildState uclient ;;
        match err with
        | Some e => ret ([], Some e)
        | None => ret (HelloRaw uclient, None)
        end
      end
    end
  end.

(** ** Handshake *)

(** [a[lo:hi]] on an array: the bounds are constants checked by the
    compiler. *)
Definition array_slice (lo hi : nat) (a : list byte) : list byte :=
  firstn (hi - lo) (skipn lo a).

Definition sliceM (lo hi : nat) (s : list byte) : M (list byte) :=
  match slice lo hi s with
  | Some r => ret r
  | None => throw (IndexOutOfRange hi (length s))
  end.

(** [append(head, extra...)] where [head] is [s[lo:hi]] and [s] reaches to
    the end of its backing array: when the capacity left after [hi]
    suffices, the new elements are stored in place, over
    [s[hi : hi+len(extra)]]. Result: the appended slice and the contents of
    [s] afterwards. *)
Definition appendTo (s : list byte) (hi : nat) (head extra : list byte)
  : list byte * list byte :=
  if (hi + length extra <=? length s)%nat
  then (head ++ extra, firstn hi s ++ extra ++ skipn (hi + length extra) s)
  else (head ++ extra, s).

Definition Write (b : list byte) : M (option error) :=
  _ <- emit (EvWrite b) ;;
  liftW (connWrite b).

(** [_, err = tls.Read(buf)]: the buffer afterwards and the error. *)
Definition Read (buf : list byte) : M (list byte * option error) :=
  _ <- emit EvRead ;;
  liftW (fun w => let '(data, e, w') := tlsRead (length buf) w in
                  ((copy buf data, e), w')).

Definition Decrypt (nonce key ciphertext : list byte) : M (list byte * option error) :=
  _ <- emit (EvDecrypt nonce key ciphertext) ;;
  ret (AESGCMDecrypt nonce key ciphertext).

(** Lines 134-143: the fields, with the server name settled. *)
Definition helloFields (authInfo : AuthInfo) (payload : authenticationPayload)
  : M clientHelloFields :=
  let fields :=
    mkFields (randPubKey payload)
             (array_slice 0 32 (ciphertextWithTag payload))
             (array_slice 32 64 (ciphertextWithTag payload))
             (MockDomain authInfo) in
  if EqualFold (serverName fields) "random" then
    name <- randomServerName ;;
    ret (set_serverName name fields)
  else ret fields.

(** Lines 165-168. *)
Definition recoverKey (buf sharedSecret : list byte)
  : M (list byte * list byte * option error) :=
  head <- sliceM 6 38 buf ;;
  extra <- sliceM 84 116 buf ;;
  let '(encrypted, buf) := appendTo buf 38 head extra in
  nonce <- sliceM 0 12 encrypted ;;
  ciphertextWithTag <- sliceM 12 60 encrypted ;;
  '(sessionKeySlice, err) <- Decrypt nonce sharedSecret ciphertextWithTag ;;
  ret (buf, sessionKeySlice, err).

(** Lines 174-180: [for i := 0; i < 2; i++], with [todo = 2 - i]. The
    result is the error the function returns with. *)
Fixpoint drain (todo : nat) (buf : list byte) : M (option error) :=
  match todo with
  | O => ret None
  | S k =>
    '(buf, err) <- Read buf ;;
    match err with
    | Some e => ret (Some e)
    | None => drain k buf
    end
  end.

(** Lines 130-163, up to the first read: [inl] is an early [return] with
    its error, [inr] the buffer as the read left it and the shared secret. *)
Definition sendHello (b : browser) (authInfo : AuthInfo)
  : M (error + list byte * list byte) :=
  '(payload, sharedSecret) <- liftW (makeAuthenticationPayload authInfo) ;;
  fields <- helloFields authInfo payload ;;
  '(ch, err) <- buildClientHello b fields ;;
  match err with
  | Some e => ret (inl e)
  | None =>
    let chWithRecordLayer := AddRecordLayer ch in
    err <- Write chWithRecordLayer ;;
    match err with
    | Some e => ret (inl e)
    | None =>
      let buf := zeros 1024 in
      '(buf, err) <- Read buf ;;
      match err with
      | Some e => ret (inl e)
      | None => ret (inr (buf, sharedSecret))
      end
    end
  end.

(** Lines 165-182. *)
Definition recoverAndDrain (sessionKey buf sharedSecret : list byte)
  : M (list byte * option error) :=
  '(buf, sessionKeySlice, err) <- recoverKey buf (array_slice 0 32 sharedSecret) ;;
  match err with
  | Some e => ret (sessionKey, Some e)
  | None =>
    let sessionKey := copy sessionKey sessionKeySlice in
    err <- drain 2 buf ;;
    ret (sessionKey, err)
  end.

(** The results are named: a bare [return] hands back [sessionKey] as it
    is at that point, with [err]. *)
Definition Handshake (b : browser) (authInfo : AuthInfo)
  : M (list byte * option error) :=
  let sessionKey := zeros 32 in
  r <- sendHello b authInfo ;;
  match r with
  | inl e => ret (sessionKey, Some e)
  | inr (buf, sharedSecret) => recoverAndDrain sessionKey buf sharedSecret
  end.

End WithWorld.

Arguments Ok {World A} a st.
Arguments Panic {World A} p.

(** ** generateSNI *)

Definition int_of_byte (b : byte) : Z := Z.of_N (Byte.to_N b).

(** Conversion [uint16(x)] of an int. *)
Definition uint16 (x : Z) : Z := x mod 2 ^ 16.

(** [binary.BigEndian.PutUint16(b, v)] on a slice [b] of two bytes: the
    contents of [b] afterwards. *)
Definition PutUint16 (v : Z) : list byte :=
  [byte_of_int (Z.shiftr v 8); byte_of_int v].

(** [binary.BigEndian.Uint16(b)]; [None] is the panic on a slice shorter
    than two bytes. *)
Definition Uint16 (b : list byte) : option Z :=
  match b with
  | b0 :: b1 :: _ => Some (Z.lor (int_of_byte b1) (Z.shiftl (int_of_byte b0) 8))
  | _ => None
  end.

(** [copy(dst[lo:hi], src)]: the contents of [dst] afterwards. *)
Definition copyInto (dst : list byte) (lo hi : nat) (src : list byte) : list byte :=
  firstn lo dst ++ copy (firstn (hi - lo) (skipn lo dst)) src ++ skipn hi dst.

Definition generateSNI (serverName : string) : list byte :=
  let name := list_byte_of_string serverName in
  let serverNameListLength := PutUint16 (uint16 (Z.of_nat (length name) + 3)) in
  let serverNameType := [Byte.x00] in
  let serverNameLength := PutUint16 (uint16 (Z.of_nat (length name))) in
  let ret := zeros (2 + 1 + 2 + length name) in
  let ret := copyInto ret 0 2 serverNameListLength in
  let ret := copyInto ret 2 3 serverNameType in
  let ret := copyInto ret 3 5 serverNameLength in
  copyInto ret 5 (length ret) name.

End Client.

(** ** A small world to run the code in *)

Module Demo.

Import Client.

(** The sink of the pipe examples keeps what it was given. *)
Definition keepAll (b : list byte) (w : list byte) : list byte * nat * option Multiplex.error :=
  (w ++ b, length b, None).

Record TestWorld := mkTest {
  tape : list Z;                                  (* what the secure source yields *)
  inbox : list (list byte * option error);        (* what the next reads bring *)
  sent : list (list byte)                         (* what was written *)
}.

Definition profile : list TLSExtension :=
  [OtherExtension 0;
   KeyShareExtension [mkKeyShare 2570 [Byte.x00]; mkKeyShare X25519 (repeat Byte.x00 32)];
   OtherExtension 43].

Definition testCryptoRand (n : Z) (w : TestWorld) : (Z + error) * TestWorld :=
  match tape w with
  | [] => (inr (Err "entropy source closed"), w)
  | x :: t => (inl (x mod n), mkTest t (inbox w) (sent w))
  end.

Definition testRandIntn (n : Z) (w : TestWorld) : Z * TestWorld :=
  (Z.of_nat (length (sent w)) mod n, w).

Definition testBuild (u : UConn) (w : TestWorld) : UConn * option error * TestWorld :=
  let exts :=
    match Extensions u, ClientHelloID_ u with
    | [], HelloZero => [OtherExtension 0; OtherExtension 10]
    | [], _ => profile
    | e, _ => e
    end in
  (mkUConn (ServerName u) (ClientHelloID_ u) exts (HelloRandom u) (HelloSessionId u)
           (HelloRandom u ++ HelloSessionId u), None, w).

Definition testSetRandom (r : list byte) (u : UConn) : UConn * option error :=
  if (length r =? 32)%nat
  then (mkUConn (ServerName u) (ClientHelloID_ u) (Extensions u) r (HelloSessionId u) (HelloRaw u),
        None)
  else (u, Some (Err "incorrect client random length")).

Definition testRead (n : nat) (w : TestWorld) : list byte * option error * TestWorld :=
  match inbox w with
  | [] => ([], Some (Err "EOF"), w)
  | (d, e) :: rest => (d, e, mkTest (tape w) rest (sent w))
  end.

Definition testDecrypt (nonce key ciphertext : list byte) : list byte * option error :=
  if ((length nonce =? 12) && (length ciphertext =? 48))%nat
  then (firstn 32 ciphertext, None)
  else ([], Some (Err "cipher: message authentication failed")).

#[export, refine] Instance testExternals : Externals TestWorld := {|
  AuthInfo := string;
  MockDomain := fun a => a;
  makeAuthenticationPayload := fun _ w =>
    (mkPayload (repeat Byte.x01 32) (repeat Byte.x02 64), repeat Byte.x03 32, w);
  cryptoRand_Int := testCryptoRand;
  rand_Intn := testRandIntn;
  equalFoldUnicode := fun _ _ => false;
  BuildHandshakeState := testBuild;
  SetClientRandom := testSetRandom;
  AddRecordLayer := fun ch => [Byte.x16; Byte.x03; Byte.x02] ++ ch;
  connWrite := fun b w => (None, mkTest (tape w) (inbox w) (sent w ++ [b]));
  tlsRead := testRead;
  AESGCMDecrypt := testDecrypt
|}.
Proof.
  - intros n w v w' Hn. unfold testCryptoRand.
    destruct (tape w) as [|x t]; [discriminate|].
    intros [= <- _]. apply Z.mod_pos_bound, Hn.
  - intros n w Hn. cbn. apply Z.mod_pos_bound, Hn.
Defined.

(** In this world the auth info is just the mock domain. *)
Definition domain (s : string) : @AuthInfo TestWorld testExternals := s.

Definition world0 : TestWorld :=
  mkTest [4; 17; 0; 25; 7; 11; 2; 0] [] [].

Definition st0 : state := mkState world0 [].

(** A server that answers: 200 bytes on the first read, then two records. *)
Definition served : TestWorld :=
  mkTest [4; 17; 0; 25; 7; 11; 2; 0]
         [(repeat Byte.x05 200, None); ([], None); ([], None)] [].

Definition stServed : state := mkState served [].

(** Where [sendHello chrome "example.com"] leaves that world. *)
Definition helloBuf : list byte :=
  Eval vm_compute in
    match sendHello chrome (domain "example.com") stServed with
    | Ok (inr (b, _)) _ => b
    | _ => []
    end.

Definition helloSecret : list byte :=
  Eval vm_compute in
    match sendHello chrome (domain "example.com") stServed with
    | Ok (inr (_, k)) _ => k
    | _ => []
    end.

Definition helloState : state :=
  Eval vm_compute in
    match sendHello chrome (domain "example.com") stServed with
    | Ok _ st => st
    | _ => stServed
    end.

(** A pipe with a writer in Wait and a goroutine about to call Close. *)
Definition closing : @Multiplex.system (list byte) :=
  Multiplex.mkSystem
    (Multiplex.mkPipe (Some [Byte.x01]) false 0 0) 0 []
    [Multiplex.Waiting (Multiplex.CallWrite [Byte.x02]);
     Multiplex.Entering Multiplex.CallClose].

(** An extension list whose last key-share extension has no X25519 entry. *)
Definition twoKeyShareExtensions : list TLSExtension :=
  [OtherExtension 0;
   KeyShareExtension [mkKeyShare 2570 [Byte.x00]; mkKeyShare X25519 (repeat Byte.x00 32)];
   KeyShareExtension [mkKeyShare 23 (repeat Byte.x00 65)]].

Definition exampleFields : clientHelloFields :=
  mkFields (repeat Byte.x01 32) (repeat Byte.x02 32) (repeat Byte.x04 32) "example.com".

(** The hello of [exampleFields] after the first build, after
    SetClientRandom, and its extensions after the overwrite. *)
Definition built1 : UConn :=
  Eval vm_compute in
    (testBuild (UClient (serverName exampleFields) (helloIDOf chrome)) world0).1.1.

Definition built2 : UConn :=
  Eval vm_compute in (testSetRandom (random exampleFields) built1).1.

Definition overwritten : list TLSExtension :=
  Eval vm_compute in
    match overwriteKeyShare (Extensions built2) (findKeyShare (Extensions built2)).1
            (findKeyShare (Extensions built2)).2 (x25519KeyShare exampleFields) with
    | inr e => e
    | inl _ => []
    end.

(** Small systems of goroutines for the examples. *)
Definition waitingReader : @Multiplex.system (list byte) :=
  Multiplex.mkSystem (Multiplex.mkPipe (Some [Byte.x01]) false 0 0) 10 []
    [Multiplex.Waiting (Multiplex.CallRead 4); Multiplex.Entering (Multiplex.CallSetReadDeadline 5)].

Definition readerAndWriter : @Multiplex.system (list byte) :=
  Multiplex.mkSystem (Multiplex.mkPipe (Some [Byte.x01; Byte.x02]) false 0 0) 10 []
    [Multiplex.Entering (Multiplex.CallRead 1); Multiplex.Waiting (Multiplex.CallWrite [Byte.x09])].



End Demo.

(** * Properties of the buffered pipe *)

Module PipeProps.

Import Multiplex.

Lemma BUF_SIZE_LIMIT_value : BUF_SIZE_LIMIT = 524288000.
Proof. reflexivity. Qed.

Lemma ensureBuf_buf p : buf (ensureBuf p) = Some (contents p).
Proof. unfold ensureBuf, contents. destruct (buf p) eqn:E; cbn; auto. Qed.

Lemma ensureBuf_allocated p b : buf p = Some b -> ensureBuf p = p.
Proof. unfold ensureBuf. intros ->. reflexivity. Qed.

Lemma ensureBuf_closed p : closed (ensureBuf p) = closed p.
Proof. unfold ensureBuf. destruct (buf p); reflexivity. Qed.

Lemma ensureBuf_rDeadline p : rDeadline (ensureBuf p) = rDeadline p.
Proof. unfold ensureBuf. destruct (buf p); reflexivity. Qed.

Lemma Len_zero_iff (b : list byte) : Buffer.Len b = 0 <-> b = [].
Proof.
  unfold Buffer.Len. destruct b; cbn; split; intros H; try reflexivity; try discriminate; lia.
Qed.

(** A buffer of exactly BUF_SIZE_LIMIT bytes, never built explicitly. *)
Lemma full_buffer_exists : exists b : list byte, Buffer.Len b = BUF_SIZE_LIMIT.
Proof.
  exists (repeat Byte.x00 (Z.to_nat BUF_SIZE_LIMIT)).
  unfold Buffer.Len. rewrite repeat_length. apply Z2Nat.id.
  rewrite BUF_SIZE_LIMIT_value. lia.
Qed.

(** ** Write, one pass *)

Lemma Write_cycle_closed input p :
  closed p = true ->
  Write_cycle input (ensureBuf p) =
    (ensureBuf p, [], Return (RetWrite 0 (Some ErrClosedPipe))).
Proof.
  intros Hc. unfold Write_cycle. rewrite ensureBuf_buf, ensureBuf_closed, Hc.
  reflexivity.
Qed.

Lemma Write_cycle_room input p :
  closed p = false -> Buffer.Len (contents p) <= BUF_SIZE_LIMIT ->
  Write_cycle input (ensureBuf p) =
    (set_buf (contents p ++ input) (ensureBuf p), [Broadcast],
     Return (RetWrite (Z.of_nat (length input)) None)).
Proof.
  intros Hc Hle. unfold Write_cycle. rewrite ensureBuf_buf, ensureBuf_closed, Hc.
  apply Z.leb_le in Hle. rewrite Hle. reflexivity.
Qed.

Lemma Write_cycle_full input p :
  closed p = false -> BUF_SIZE_LIMIT < Buffer.Len (contents p) ->
  Write_cycle input (ensureBuf p) = (ensureBuf p, [], CondWait).
Proof.
  intros Hc Hlt. unfold Write_cycle. rewrite ensureBuf_buf, ensureBuf_closed, Hc.
  apply Z.leb_gt in Hlt. rewrite Hlt. reflexivity.
Qed.

(** C10. A successful Write stores the whole input whenever the length it
    saw was at most BUF_SIZE_LIMIT, so the length afterwards is the old
    length plus the input length: at most BUF_SIZE_LIMIT + len(input), and
    that bound is reached by a buffer that held exactly BUF_SIZE_LIMIT
    bytes, so the ceiling does not bound the buffer. *)
Theorem C10_ceiling_overshoot (input : list byte) :
  (forall p, closed p = false -> Buffer.Len (contents p) <= BUF_SIZE_LIMIT ->
     exists p', Write_cycle input (ensureBuf p) =
                  (p', [Broadcast], Return (RetWrite (Z.of_nat (length input)) None)) /\
                contents p' = contents p ++ input /\
                Buffer.Len (contents p') = Buffer.Len (contents p) + Z.of_nat (length input) /\
                Buffer.Len (contents p') <= BUF_SIZE_LIMIT + Z.of_nat (length input)) /\
  (exists p p',
     closed p = false /\ Buffer.Len (contents p) = BUF_SIZE_LIMIT /\
     Write_cycle input (ensureBuf p) =
       (p', [Broadcast], Return (RetWrite (Z.of_nat (length input)) None)) /\
     Buffer.Len (contents p') = BUF_SIZE_LIMIT + Z.of_nat (length input) /\
     (input <> [] -> BUF_SIZE_LIMIT < Buffer.Len (contents p'))).
Proof.
  assert (Hall : forall p, closed p = false -> Buffer.Len (contents p) <= BUF_SIZE_LIMIT ->
     exists p', Write_cycle input (ensureBuf p) =
                  (p', [Broadcast], Return (RetWrite (Z.of_nat (length input)) None)) /\
                contents p' = contents p ++ input /\
                Buffer.Len (contents p') = Buffer.Len (contents p) + Z.of_nat (length input) /\
                Buffer.Len (contents p') <= BUF_SIZE_LIMIT + Z.of_nat (length input)).
  { intros p Hc Hle.
    exists (set_buf (contents p ++ input) (ensureBuf p)).
    split; [apply Write_cycle_room; assumption|].
    split; [reflexivity|].
    assert (Buffer.Len (contents p ++ input)
            = Buffer.Len (contents p) + Z.of_nat (length input)) as E.
    { unfold Buffer.Len. rewrite length_app. lia. }
    change (contents (set_buf (contents p ++ input) (ensureBuf p)))
      with (contents p ++ input).
    rewrite E. split; lia. }
  split; [exact Hall|].
  destruct full_buffer_exists as [b Hb].
  assert (Hcb : contents (mkPipe (Some b) false 0 0) = b) by reflexivity.
  destruct (Hall (mkPipe (Some b) false 0 0) eq_refl) as (p' & Hw & _ & Hlen & _).
  { rewrite Hcb, Hb. lia. }
  rewrite Hcb, Hb in Hlen.
  exists (mkPipe (Some b) false 0 0), p'.
  split; [reflexivity|]. split; [rewrite Hcb; exact Hb|].
  split; [exact Hw|]. split; [exact Hlen|].
  intros Hne. rewrite Hlen. destruct input; [congruence|]. cbn [length]. lia.
Qed.

(** ** The clock *)

Lemma Until_nonpos (now t : Time) : Until now t <= 0 <-> t <= now.
Proof.
  unfold Until, Sub, minDuration, maxDuration.
  change (2 ^ 63) with 9223372036854775808. lia.
Qed.



Lemma deadlineCheck_elapsed now p :
  rDeadline p <> 0 -> rDeadline p <= now -> deadlineCheck now p = inl ErrTimeout.
Proof.
  intros Hz Hle. unfold deadlineCheck, IsZero.
  destruct (Z.eqb_spec (rDeadline p) 0); [contradiction|].
  apply (proj2 (Until_nonpos now _)) in Hle. apply Z.leb_le in Hle.
  rewrite Hle. reflexivity.
Qed.


Lemma deadlineCheck_timeout now p e :
  deadlineCheck now p = inl e -> e = ErrTimeout /\ rDeadline p <> 0 /\ rDeadline p <= now.
Proof.
  unfold deadlineCheck, IsZero.
  destruct (Z.eqb_spec (rDeadline p) 0); [discriminate|].
  destruct (Z.leb_spec (Until now (rDeadline p)) 0) as [Hle|]; [|discriminate].
  intros [= <-]. apply (proj1 (Until_nonpos _ _)) in Hle. repeat split; auto.
Qed.

(** ** Read, one pass *)

Lemma closed_drained_test p b :
  (closed p && (Buffer.Len b =? 0))%bool = true <-> closed p = true /\ b = [].
Proof.
  rewrite andb_true_iff, Z.eqb_eq, Len_zero_iff. reflexivity.
Qed.

Lemma Len_pos_test (b : list byte) : (0 <? Buffer.Len b) = true <-> b <> [].
Proof.
  rewrite Z.ltb_lt. unfold Buffer.Len. destruct b; cbn; split; intros; try congruence; lia.
Qed.

Lemma Read_cycle_drained now n p :
  buf p = Some [] -> closed p = true ->
  Read_cycle now n p = (p, [], Return (RetRead [] (Some EOF))).
Proof. intros Hb Hc. unfold Read_cycle. rewrite Hb, Hc. reflexivity. Qed.

Lemma Read_cycle_elapsed now n p b :
  buf p = Some b -> ~ (closed p = true /\ b = []) ->
  rDeadline p <> 0 -> rDeadline p <= now ->
  Read_cycle now n p = (p, [], Return (RetRead [] (Some ErrTimeout))).
Proof.
  intros Hb Hnd Hz Hle. unfold Read_cycle. rewrite Hb.
  destruct (closed p && (Buffer.Len b =? 0))%bool eqn:E.
  { apply closed_drained_test in E. contradiction. }
  rewrite deadlineCheck_elapsed by assumption. reflexivity.
Qed.




(** ** Goroutines: what one step does to one of them *)

Section System.

Context {W : Type}.
Variable sinkWrite : list byte -> W -> W * nat * option error.

Abbreviation call := (@call W).
Abbreviation thread := (@thread W).
Abbreviation system := (@system W).

Lemma wake_idemp (t : thread) : wake (wake t) = wake t.
Proof. destruct t; reflexivity. Qed.

Lemma apply_effects_threads now es : forall (tm : list Time) (ts : list thread),
  length (apply_effects now es (tm, ts)).2 = length ts /\
  forall j, (apply_effects now es (tm, ts)).2 !! j = ts !! j \/
            (apply_effects now es (tm, ts)).2 !! j = wake <$> (ts !! j).
Proof.
  induction es as [|e es IH]; intros tm ts.
  - split; [reflexivity|]. intros j. left. reflexivity.
  - change (apply_effects now (e :: es) (tm, ts))
      with (apply_effects now es (apply_effect now e (tm, ts))).
    destruct e; unfold apply_effect; cbn [fst snd].
    + destruct (IH tm (wake <$> ts)) as [Hlen Hj]. split.
      * rewrite Hlen. apply length_fmap.
      * intros j. right. destruct (Hj j) as [-> | ->]; rewrite list_lookup_fmap.
        -- reflexivity.
        -- destruct (ts !! j); cbn; [rewrite wake_idemp|]; reflexivity.
    + apply IH.
Qed.

Lemma run_thread_eq (s : system) i c p0 p' es x c' :
  body sinkWrite (clock s) c p0 = ((p', es, x), c') ->
  run_thread sinkWrite s i c p0 =
    mkSystem p' (clock s)
      (apply_effects (clock s) es (timers s, threads s)).1
      (<[i := after_exit x c']> (apply_effects (clock s) es (timers s, threads s)).2).
Proof.
  intros Hb. unfold run_thread. rewrite Hb.
  destruct (apply_effects (clock s) es (timers s, threads s)). reflexivity.
Qed.

Lemma run_thread_self (s : system) i c p0 p' es x c' t :
  threads s !! i = Some t ->
  body sinkWrite (clock s) c p0 = ((p', es, x), c') ->
  threads (run_thread sinkWrite s i c p0) !! i = Some (after_exit x c') /\
  pipe (run_thread sinkWrite s i c p0) = p' /\
  clock (run_thread sinkWrite s i c p0) = clock s.
Proof.
  intros Hi Hb. rewrite (run_thread_eq _ _ _ _ _ _ _ _ Hb). cbn.
  split; [|split; reflexivity].
  apply list_lookup_insert_eq.
  destruct (apply_effects_threads (clock s) es (timers s) (threads s)) as [-> _].
  eapply lookup_lt_Some, Hi.
Qed.

Lemma run_thread_other (s : system) i j c p0 t :
  i <> j -> threads s !! i = Some t ->
  threads (run_thread sinkWrite s j c p0) !! i = Some t \/
  threads (run_thread sinkWrite s j c p0) !! i = Some (wake t).
Proof.
  intros Hne Hi.
  destruct (body sinkWrite (clock s) c p0) as [[[p' es] x] c'] eqn:Hb.
  rewrite (run_thread_eq _ _ _ _ _ _ _ _ Hb). cbn.
  rewrite list_lookup_insert_ne by congruence.
  destruct (apply_effects_threads (clock s) es (timers s) (threads s)) as [_ Hj].
  destruct (Hj i) as [-> | ->]; rewrite Hi; auto.
Qed.

(** A step either leaves goroutine [i] alone (a broadcast may wake it), or
    is its own stretch under the lock, or is its entry into Wait. *)
Lemma step_thread d (s s' : system) i t :
  step sinkWrite d s = Some s' -> threads s !! i = Some t ->
  (d <> Run i /\ d <> Park i /\
   (threads s' !! i = Some t \/ threads s' !! i = Some (wake t))) \/
  (d = Run i /\ lock_free (threads s) = true /\
   exists c p0, ((t = Entering c /\ p0 = enter c (pipe s)) \/ (t = Woken c /\ p0 = pipe s)) /\
                s' = run_thread sinkWrite s i c p0) \/
  (d = Park i /\ exists c, t = Parking c /\ threads s' !! i = Some (Waiting c)).
Proof.
  intros Hs Hi. destruct d as [dt|k|j|j]; cbn in Hs.
  - left. destruct (0 <=? dt); [|discriminate]. injection Hs as <-. cbn.
    repeat split; try discriminate. auto.
  - left. destruct (timers s !! k) as [t0|]; [|discriminate].
    destruct (t0 <=? clock s); [|discriminate]. injection Hs as <-. cbn.
    repeat split; try discriminate. right. rewrite list_lookup_fmap, Hi. reflexivity.
  - destruct (lock_free (threads s)) eqn:Hl; [|discriminate].
    destruct (decide (j = i)) as [->|Hne].
    + right; left. rewrite Hi in Hs. split; [reflexivity|]. split; [reflexivity|].
      destruct t; try discriminate; injection Hs as <-; eauto 10.
    + left. split; [congruence|]. split; [discriminate|].
      destruct (threads s !! j) as [[c| | |c| |]|]; try discriminate;
        injection Hs as <-; apply run_thread_other; auto.
  - destruct (decide (j = i)) as [->|Hne].
    + right; right. split; [reflexivity|]. rewrite Hi in Hs.
      destruct t; try discriminate. injection Hs as <-. cbn.
      eexists; split; [reflexivity|]. apply list_lookup_insert_eq.
      eapply lookup_lt_Some, Hi.
    + left. split; [discriminate|]. split; [congruence|].
      destruct (threads s !! j) as [[| c | | | |]|]; try discriminate.
      injection Hs as <-. cbn. left. rewrite list_lookup_insert_ne by congruence. exact Hi.
Qed.

(** ** The pipe along a step: closed stays closed, the buffer stays allocated *)

Lemma body_pipe now (c : call) p p' es x c' :
  body sinkWrite now c p = ((p', es, x), c') ->
  (closed p = true -> closed p' = true) /\ (is_Some (buf p) -> is_Some (buf p')).
Proof.
  unfold body, Read_cycle, WriteTo_cycle, Write_cycle, Close, SetReadDeadline,
    SetWriteToTimeout, Buffer.Read, Buffer.Write.
  intros H. repeat case_match; simplify_eq; cbn; split; eauto;
    intros [? ?]; discriminate.
Qed.

Lemma enter_pipe (c : call) p :
  closed (enter c p) = closed p /\ (is_Some (buf p) -> enter c p = p) /\
  (is_Some (buf p) -> is_Some (buf (enter c p))).
Proof.
  destruct c; cbn; rewrite ?ensureBuf_closed; repeat split; auto;
    intros [b Hb]; rewrite ?(ensureBuf_allocated _ _ Hb); eauto.
Qed.

Lemma run_thread_pipe (s : system) i c p0 :
  (closed p0 = true -> closed (pipe (run_thread sinkWrite s i c p0)) = true) /\
  (is_Some (buf p0) -> is_Some (buf (pipe (run_thread sinkWrite s i c p0)))).
Proof.
  destruct (body sinkWrite (clock s) c p0) as [[[p' es] x] c'] eqn:Hb.
  rewrite (run_thread_eq _ _ _ _ _ _ _ _ Hb). cbn. eapply body_pipe, Hb.
Qed.

Lemma step_pipe d (s s' : system) :
  step sinkWrite d s = Some s' ->
  (closed (pipe s) = true -> closed (pipe s') = true) /\
  (is_Some (buf (pipe s)) -> is_Some (buf (pipe s'))).
Proof.
  intros Hs. destruct d as [dt|k|j|j]; cbn in Hs.
  - destruct (0 <=? dt); [|discriminate]. injection Hs as <-. auto.
  - destruct (timers s !! k) as [t0|]; [|discriminate].
    destruct (t0 <=? clock s); [|discriminate]. injection Hs as <-. auto.
  - destruct (lock_free (threads s)); [|discriminate].
    destruct (threads s !! j) as [[c| | |c| |]|]; try discriminate; injection Hs as <-.
    + destruct (run_thread_pipe s j c (enter c (pipe s))) as [Hc Ha].
      destruct (enter_pipe c (pipe s)) as (Ec & _ & Ea).
      split; intros; [apply Hc; congruence | apply Ha, Ea; assumption].
    + apply run_thread_pipe.
  - destruct (threads s !! j) as [[| c | | | |]|]; try discriminate.
    injection Hs as <-. auto.
Qed.

(** ** A blocked goroutine has allocated the buffer *)

Lemma step_length d (s s' : system) :
  step sinkWrite d s = Some s' -> length (threads s') = length (threads s).
Proof.
  intros Hs. destruct d as [dt|k|j|j]; cbn in Hs.
  - destruct (0 <=? dt); [|discriminate]. injection Hs as <-. reflexivity.
  - destruct (timers s !! k) as [t0|]; [|discriminate].
    destruct (t0 <=? clock s); [|discriminate]. injection Hs as <-. apply length_fmap.
  - destruct (lock_free (threads s)); [|discriminate].
    assert (Hrun : forall c p0,
              length (threads (run_thread sinkWrite s j c p0)) = length (threads s)).
    { intros c p0.
      destruct (body sinkWrite (clock s) c p0) as [[[p' es] x] c'] eqn:Hb.
      rewrite (run_thread_eq _ _ _ _ _ _ _ _ Hb). cbn. rewrite length_insert.
      apply apply_effects_threads. }
    destruct (threads s !! j) as [[c| | |c| |]|]; try discriminate;
      injection Hs as <-; apply Hrun.
  - destruct (threads s !! j) as [[| c | | | |]|]; try discriminate.
    injection Hs as <-. cbn. apply length_insert.
Qed.

Lemma blocked_of_wake c (t : thread) : blocked c (wake t) -> blocked c t.
Proof.
  destruct t; cbn; intros [E|[E|E]]; try discriminate; injection E as ->;
    unfold blocked; auto.
Qed.

Lemma wait_after_entry now (c : call) p p' es c' :
  body sinkWrite now c (enter c p) = ((p', es, CondWait), c') -> is_Some (buf p').
Proof.
  intros Hb. destruct (body_pipe _ _ _ _ _ _ _ Hb) as [_ Ha]. apply Ha.
  destruct c; cbn in Hb |- *; try discriminate; rewrite ensureBuf_buf; eauto.
Qed.

Lemma step_allocated d (s s' : system) :
  step sinkWrite d s = Some s' ->
  allocated_when_blocked (pipe s) (threads s) ->
  allocated_when_blocked (pipe s') (threads s').
Proof.
  intros Hs Hinv i t' c Hi' Hb'.
  destruct (step_pipe d s s' Hs) as [_ Ha].
  assert (Ht : exists t, threads s !! i = Some t).
  { apply lookup_lt_is_Some. rewrite <- (step_length d s s' Hs).
    eapply lookup_lt_Some, Hi'. }
  destruct Ht as [t Hi].
  destruct (step_thread d s s' i t Hs Hi)
    as [(_ & _ & [H|H]) | [(-> & Hl & c0 & p0 & Hcase & ->) | (-> & c0 & -> & H)]].
  - rewrite H in Hi'. injection Hi' as <-. apply Ha. eapply Hinv; eassumption.
  - rewrite H in Hi'. injection Hi' as <-. apply Ha.
    eapply Hinv; [exact Hi|]. apply blocked_of_wake, Hb'.
  - destruct Hcase as [[-> ->]|[-> ->]].
    + destruct (body sinkWrite (clock s) c0 (enter c0 (pipe s)))
        as [[[p' es] x] c'] eqn:Hbody.
      destruct (run_thread_self s i c0 _ _ _ _ _ _ Hi Hbody) as (Ht' & Hp' & _).
      rewrite Ht' in Hi'. injection Hi' as <-. rewrite Hp'.
      destruct x; cbn in Hb'; try (destruct Hb' as [E|[E|E]]; discriminate).
      eapply wait_after_entry, Hbody.
    + apply Ha. eapply Hinv; [exact Hi|]. right; right; reflexivity.
  - apply Ha. eapply Hinv; [exact Hi|]. left; reflexivity.
Qed.

(** From a state in which every goroutine is still at the entry of its
    call, no schedule leads to a blocked goroutine on an unallocated
    buffer. *)
Lemma started_allocated ds (s s' : system) :
  (forall i t, threads s !! i = Some t -> exists c, t = Entering c) ->
  exec sinkWrite ds s = Some s' ->
  allocated_when_blocked (pipe s') (threads s').
Proof.
  intros Hinit. revert s Hinit.
  assert (Hgen : forall ds s, allocated_when_blocked (pipe s) (threads s) ->
                   exec sinkWrite ds s = Some s' ->
                   allocated_when_blocked (pipe s') (threads s')).
  { clear. intros ds. induction ds as [|d ds IH]; intros s Hinv He; cbn in He.
    - injection He as <-. exact Hinv.
    - destruct (step sinkWrite d s) as [s1|] eqn:E; [|discriminate].
      eapply IH; [|exact He]. eapply step_allocated; eassumption. }
  intros s Hinit He. eapply Hgen; [|exact He].
  intros i t c Hi Hb. destruct (Hinit i t Hi) as [c0 ->].
  destruct Hb as [E|[E|E]]; discriminate.
Qed.

(** ** Running a goroutine *)

Lemma run_woken (s : system) i c p' es x c' :
  threads s !! i = Some (Woken c) -> lock_free (threads s) = true ->
  body sinkWrite (clock s) c (pipe s) = ((p', es, x), c') ->
  exists s', step sinkWrite (Run i) s = Some s' /\
             threads s' !! i = Some (after_exit x c') /\ pipe s' = p' /\
             clock s' = clock s /\
             timers s' = (apply_effects (clock s) es (timers s, threads s)).1.
Proof.
  intros Hi Hl Hb. eexists. cbn. rewrite Hl, Hi. split; [reflexivity|].
  destruct (run_thread_self s i c (pipe s) _ _ _ _ _ Hi Hb) as (? & ? & ?).
  repeat split; try assumption.
  rewrite (run_thread_eq _ _ _ _ _ _ _ _ Hb). reflexivity.
Qed.

Lemma run_entering (s : system) i c p' es x c' :
  threads s !! i = Some (Entering c) -> lock_free (threads s) = true ->
  body sinkWrite (clock s) c (enter c (pipe s)) = ((p', es, x), c') ->
  exists s', step sinkWrite (Run i) s = Some s' /\
             threads s' !! i = Some (after_exit x c') /\ pipe s' = p' /\
             clock s' = clock s /\
             timers s' = (apply_effects (clock s) es (timers s, threads s)).1.
Proof.
  intros Hi Hl Hb. eexists. cbn. rewrite Hl, Hi. split; [reflexivity|].
  destruct (run_thread_self s i c (enter c (pipe s)) _ _ _ _ _ Hi Hb) as (? & ? & ?).
  repeat split; try assumption.
  rewrite (run_thread_eq _ _ _ _ _ _ _ _ Hb). reflexivity.
Qed.

Lemma exec_invariant (I : system -> Prop) :
  (forall d s s', step sinkWrite d s = Some s' -> I s -> I s') ->
  forall ds s s', exec sinkWrite ds s = Some s' -> I s -> I s'.
Proof.
  intros Hstep ds. induction ds as [|d ds IH]; intros s s' He Hs; cbn in He.
  - injection He as <-. exact Hs.
  - destruct (step sinkWrite d s) as [s1|] eqn:E; [|discriminate].
    eapply IH; [exact He|]. eapply Hstep; eassumption.
Qed.

Lemma blocked_wake c (t : thread) : blocked c t -> blocked c (wake t).
Proof. intros [-> | [-> | ->]]; cbn; unfold blocked; auto. Qed.

(** ** After Close *)

Lemma Close_closed p :
  closed p = true -> Close p = (p, [Broadcast], Return (RetClose None)).
Proof. destruct p as [b c t d]. cbn. intros ->. reflexivity. Qed.

Lemma Read_first_drained now n p :
  closed p = true -> contents p = [] ->
  Read_cycle now n (ensureBuf p) = (ensureBuf p, [], Return (RetRead [] (Some EOF))).
Proof.
  intros Hc He. apply Read_cycle_drained.
  - rewrite ensureBuf_buf, He. reflexivity.
  - rewrite ensureBuf_closed. exact Hc.
Qed.

Lemma woken_writer_closed (s s' : system) i input :
  closed (pipe s) = true -> is_Some (buf (pipe s)) ->
  threads s !! i = Some (Woken (CallWrite input)) ->
  step sinkWrite (Run i) s = Some s' ->
  threads s' !! i = Some (Returned (RetWrite 0 (Some ErrClosedPipe))).
Proof.
  intros Hc [b Hb] Hi Hs. cbn in Hs.
  destruct (lock_free (threads s)) eqn:Hl; [|discriminate].
  assert (Hbody : body sinkWrite (clock s) (CallWrite input) (pipe s) =
            ((pipe s, [], Return (RetWrite 0 (Some ErrClosedPipe))), CallWrite input)).
  { cbn. rewrite <- (ensureBuf_allocated _ _ Hb) at 1.
    rewrite (Write_cycle_closed input _ Hc), (ensureBuf_allocated _ _ Hb). reflexivity. }
  destruct (run_woken s i _ _ _ _ _ Hi Hl Hbody) as (s1 & Hs1 & Ht & _).
  cbn in Hs1. rewrite Hl in Hs1. rewrite Hs1 in Hs. injection Hs as <-. exact Ht.
Qed.

Lemma released_writer_step i input d (s s' : system) :
  step sinkWrite d s = Some s' -> released_writer i input s -> released_writer i input s'.
Proof.
  intros Hs (Hc & Ha & Ht).
  destruct (step_pipe d s s' Hs) as [Hc' Ha'].
  split; [auto|]. split; [auto|].
  destruct Ht as [Ht|Ht].
  - destruct (step_thread d s s' i _ Hs Ht)
      as [(_ & _ & [H|H]) | [(-> & _ & c & p0 & _) | (_ & c & E & _)]];
      [left; exact H | left; exact H | | discriminate].
    right. eapply woken_writer_closed; eassumption.
  - destruct (step_thread d s s' i _ Hs Ht)
      as [(_ & _ & [H|H]) | [(_ & _ & c & p0 & [[E _]|[E _]] & _) | (_ & c & E & _)]];
      [right; exact H | right; exact H | discriminate..].
Qed.

(** C2. Close in a system of goroutines. The call returns nil and leaves
    the pipe closed; a second Close changes nothing and returns nil again;
    every writer that was waiting on backpressure is woken by the broadcast.
    In every state reached afterwards the pipe is still closed, a Read that
    finds the buffer empty returns end-of-stream, a Write of any input
    returns the closed-pipe error, and the writer that was waiting is
    either runnable or has returned the closed-pipe error: its next
    stretch under the lock returns that error. *)
Theorem C2_close_semantics (s : system) (j : nat) :
  threads s !! j = Some (Entering CallClose) ->
  lock_free (threads s) = true ->
  exists s1,
    step sinkWrite (Run j) s = Some s1 /\
    threads s1 !! j = Some (Returned (RetClose None)) /\
    closed (pipe s1) = true /\
    Close (pipe s1) = (pipe s1, [Broadcast], Return (RetClose None)) /\
    (forall i input,
       threads s !! i = Some (Waiting (CallWrite input)) ->
       threads s1 !! i = Some (Woken (CallWrite input))) /\
    forall ds s2, exec sinkWrite ds s1 = Some s2 ->
      closed (pipe s2) = true /\
      (forall now n, contents (pipe s2) = [] ->
         Read_cycle now n (ensureBuf (pipe s2)) =
           (ensureBuf (pipe s2), [], Return (RetRead [] (Some EOF)))) /\
      (forall input,
         Write_cycle input (ensureBuf (pipe s2)) =
           (ensureBuf (pipe s2), [], Return (RetWrite 0 (Some ErrClosedPipe)))) /\
      (forall i input,
         is_Some (buf (pipe s)) ->
         threads s !! i = Some (Waiting (CallWrite input)) ->
         (threads s2 !! i = Some (Woken (CallWrite input)) \/
          threads s2 !! i = Some (Returned (RetWrite 0 (Some ErrClosedPipe)))) /\
         forall s3, step sinkWrite (Run i) s2 = Some s3 ->
           threads s3 !! i = Some (Returned (RetWrite 0 (Some ErrClosedPipe)))).
Proof.
  intros Hj Hl.
  assert (Hbody : body sinkWrite (clock s) CallClose (enter (@CallClose W) (pipe s)) =
            ((set_closed true (pipe s), [Broadcast], Return (RetClose None)), CallClose))
    by reflexivity.
  destruct (run_entering s j _ _ _ _ _ Hj Hl Hbody) as (s1 & Hs1 & Htj & Hp & _).
  exists s1. split; [exact Hs1|]. split; [exact Htj|].
  assert (Hc1 : closed (pipe s1) = true) by (rewrite Hp; reflexivity).
  split; [exact Hc1|]. split; [apply Close_closed, Hc1|].
  assert (Hwoken : forall i input,
            threads s !! i = Some (Waiting (CallWrite input)) ->
            threads s1 !! i = Some (Woken (CallWrite input))).
  { intros i input Hi. cbn in Hs1. rewrite Hl, Hj in Hs1. injection Hs1 as <-.
    rewrite (run_thread_eq _ _ _ _ _ _ _ _ Hbody). cbn.
    assert (i <> j) by (intros ->; rewrite Hj in Hi; discriminate).
    rewrite list_lookup_insert_ne by congruence.
    rewrite list_lookup_fmap, Hi. reflexivity. }
  split; [exact Hwoken|].
  intros ds s2 He.
  assert (Hc2 : closed (pipe s2) = true).
  { apply (exec_invariant (fun x => closed (pipe x) = true)) with (ds := ds) (s := s1);
      [|exact He|exact Hc1].
    intros d x x' Hx. apply (step_pipe d x x' Hx). }
  split; [exact Hc2|].
  split; [intros now n Hd; apply Read_first_drained; assumption|].
  split; [intros input; apply Write_cycle_closed; assumption|].
  intros i input Ha Hi.
  assert (Hrel : released_writer i input s2).
  { apply (exec_invariant (released_writer i input)) with (ds := ds) (s := s1);
      [|exact He|].
    - intros d x x'. apply released_writer_step.
    - split; [exact Hc1|]. split.
      + rewrite Hp. exact Ha.
      + left. apply Hwoken, Hi. }
  destruct Hrel as (_ & Ha2 & Ht2).
  split; [exact Ht2|].
  intros s3 Hs3. destruct Ht2 as [Ht2|Ht2].
  - eapply woken_writer_closed; eassumption.
  - cbn in Hs3. rewrite Ht2 in Hs3. destruct (lock_free (threads s2)); discriminate.
Qed.

(** C9. On a closed pipe with nothing buffered, the first test of the loop
    wins: Read and WriteTo both return count 0 with end-of-stream, whatever
    the read deadline and the clock are, so also for a deadline that is set
    and already passed; the timeout error is not returned there. *)
Theorem C9_drained_before_deadline (now : Time) (n : nat) (w : W) (acc : Z)
    (p : bufferedPipe) :
  closed p = true -> contents p = [] ->
  Read_cycle now n (ensureBuf p) =
    (ensureBuf p, [], Return (RetRead [] (Some EOF))) /\
  WriteTo_cycle sinkWrite now w acc (ensureBuf p) =
    ((ensureBuf p, [], Return (RetWriteTo 0 (Some EOF))), w, acc) /\
  (rDeadline p <> 0 -> rDeadline p <= now ->
   forall q es data k,
     Read_cycle now n (ensureBuf p) <> (q, es, Return (RetRead data (Some ErrTimeout))) /\
     (WriteTo_cycle sinkWrite now w acc (ensureBuf p)).1.1
       <> (q, es, Return (RetWriteTo k (Some ErrTimeout)))).
Proof.
  intros Hc He.
  assert (HR : Read_cycle now n (ensureBuf p) =
                 (ensureBuf p, [], Return (RetRead [] (Some EOF))))
    by (apply Read_first_drained; assumption).
  assert (HW : WriteTo_cycle sinkWrite now w acc (ensureBuf p) =
                 ((ensureBuf p, [], Return (RetWriteTo 0 (Some EOF))), w, acc)).
  { unfold WriteTo_cycle. rewrite ensureBuf_buf, ensureBuf_closed, Hc, He. reflexivity. }
  split; [exact HR|]. split; [exact HW|].
  intros _ _ q es data k. rewrite HR, HW. split; intros [=].
Qed.

(** ** A reader under a deadline *)








(** ** A writer under backpressure *)

Lemma writer_stays_blocked d (s s' : system) i input t b :
  step sinkWrite d s = Some s' ->
  threads s !! i = Some t -> blocked (CallWrite input) t ->
  buf (pipe s) = Some b -> closed (pipe s) = false ->
  BUF_SIZE_LIMIT < Buffer.Len b ->
  exists t', threads s' !! i = Some t' /\ blocked (CallWrite input) t'.
Proof.
  intros Hs Hi Hb Hbuf Hc Hfull.
  destruct (step_thread d s s' i t Hs Hi)
    as [(_ & _ & [H|H]) | [(-> & Hl & c & p0 & Hcase & _) | (-> & c & -> & H)]].
  - eauto.
  - eexists; split; [exact H|]. apply blocked_wake, Hb.
  - assert (Ht : t = Woken (CallWrite input)).
    { destruct Hcase as [[-> _]|[-> _]]; destruct Hb as [E|[E|E]];
        try discriminate; congruence. }
    subst t.
    assert (Hbody : body sinkWrite (clock s) (CallWrite input) (pipe s) =
              ((pipe s, [], CondWait), CallWrite input)).
    { cbn. rewrite <- (ensureBuf_allocated _ _ Hbuf) at 1.
      rewrite Write_cycle_full, (ensureBuf_allocated _ _ Hbuf); try assumption.
      - reflexivity.
      - unfold contents. rewrite Hbuf. exact Hfull. }
    destruct (run_woken s i _ _ _ _ _ Hi Hl Hbody) as (s1 & Hs1 & Ht1 & _).
    rewrite Hs1 in Hs. injection Hs as <-.
    eexists; split; [exact Ht1|]. left; reflexivity.
  - eexists; split; [exact H|].
    destruct Hb as [E|[E|E]]; try discriminate. injection E as ->.
    right; left; reflexivity.
Qed.

Lemma writer_released (s s' : system) i input b :
  threads s !! i = Some (Woken (CallWrite input)) ->
  step sinkWrite (Run i) s = Some s' ->
  buf (pipe s) = Some b ->
  (closed (pipe s) = true ->
   threads s' !! i = Some (Returned (RetWrite 0 (Some ErrClosedPipe))) /\
   pipe s' = pipe s) /\
  (closed (pipe s) = false -> Buffer.Len b <= BUF_SIZE_LIMIT ->
   threads s' !! i = Some (Returned (RetWrite (Z.of_nat (length input)) None)) /\
   pipe s' = set_buf (b ++ input) (pipe s)).
Proof.
  intros Hi Hs Hbuf.
  assert (Hl : lock_free (threads s) = true).
  { cbn in Hs. destruct (lock_free (threads s)); [reflexivity|discriminate]. }
  assert (Hcont : contents (pipe s) = b) by (unfold contents; rewrite Hbuf; reflexivity).
  pose proof (ensureBuf_allocated _ _ Hbuf) as He.
  split.
  - intros Hc.
    assert (Hbody : body sinkWrite (clock s) (CallWrite input) (pipe s) =
              ((pipe s, [], Return (RetWrite 0 (Some ErrClosedPipe))), CallWrite input)).
    { cbn. rewrite <- He at 1. rewrite Write_cycle_closed, He by assumption. reflexivity. }
    destruct (run_woken s i _ _ _ _ _ Hi Hl Hbody) as (s1 & Hs1 & Ht1 & Hp1 & _).
    rewrite Hs1 in Hs. injection Hs as <-. auto.
  - intros Hc Hle.
    assert (Hbody : body sinkWrite (clock s) (CallWrite input) (pipe s) =
              ((set_buf (b ++ input) (pipe s), [Broadcast],
                Return (RetWrite (Z.of_nat (length input)) None)), CallWrite input)).
    { cbn. rewrite <- He at 1.
      rewrite Write_cycle_room, He, Hcont; try assumption; [reflexivity|].
      rewrite Hcont. exact Hle. }
    destruct (run_woken s i _ _ _ _ _ Hi Hl Hbody) as (s1 & Hs1 & Ht1 & Hp1 & _).
    rewrite Hs1 in Hs. injection Hs as <-. auto.
Qed.

(** C3. Write on any pipe and any input. One pass ([p0] is the pipe once
    the buffer is allocated): closed gives the closed-pipe error at once; a
    buffer length within BUF_SIZE_LIMIT (500 MiB) appends the whole input,
    broadcasts and returns the input length without error; otherwise the
    writer waits. The only error a pass can return is the closed-pipe
    error, and only on a closed pipe. Among goroutines: while the pipe is
    open and its buffer above the ceiling, no step releases a blocked
    writer; once woken it runs the same test again, and returns the
    closed-pipe error if the pipe is closed by then, the input length if
    there is room. *)
Theorem C3_write_cycle (input : list byte) :
  BUF_SIZE_LIMIT = 500 * 2 ^ 20 /\
  (forall p, closed p = true ->
     Write_cycle input (ensureBuf p) =
       (ensureBuf p, [], Return (RetWrite 0 (Some ErrClosedPipe)))) /\
  (forall p, closed p = false -> Buffer.Len (contents p) <= BUF_SIZE_LIMIT ->
     Write_cycle input (ensureBuf p) =
       (set_buf (contents p ++ input) (ensureBuf p), [Broadcast],
        Return (RetWrite (Z.of_nat (length input)) None))) /\
  (forall p, closed p = false -> BUF_SIZE_LIMIT < Buffer.Len (contents p) ->
     Write_cycle input (ensureBuf p) = (ensureBuf p, [], CondWait)) /\
  (forall p q es n e,
     Write_cycle input (ensureBuf p) = (q, es, Return (RetWrite n (Some e))) ->
     closed p = true /\ e = ErrClosedPipe /\ n = 0 /\ q = ensureBuf p) /\
  (forall d (s s' : system) i t b,
     step sinkWrite d s = Some s' ->
     threads s !! i = Some t -> blocked (CallWrite input) t ->
     buf (pipe s) = Some b -> closed (pipe s) = false ->
     BUF_SIZE_LIMIT < Buffer.Len b ->
     exists t', threads s' !! i = Some t' /\ blocked (CallWrite input) t') /\
  (forall (s s' : system) i b,
     threads s !! i = Some (Woken (CallWrite input)) ->
     step sinkWrite (Run i) s = Some s' ->
     buf (pipe s) = Some b ->
     (closed (pipe s) = true ->
      threads s' !! i = Some (Returned (RetWrite 0 (Some ErrClosedPipe))) /\
      pipe s' = pipe s) /\
     (closed (pipe s) = false -> Buffer.Len b <= BUF_SIZE_LIMIT ->
      threads s' !! i = Some (Returned (RetWrite (Z.of_nat (length input)) None)) /\
      pipe s' = set_buf (b ++ input) (pipe s))).
Proof.
  split; [reflexivity|].
  split; [intros p; apply Write_cycle_closed|].
  split; [intros p; apply Write_cycle_room|].
  split; [intros p; apply Write_cycle_full|].
  split.
  { intros p q es n e H. destruct (closed p) eqn:Hc.
    - rewrite Write_cycle_closed in H by assumption. injection H as <- _ <- <-. auto.
    - destruct (Z.le_gt_cases (Buffer.Len (contents p)) BUF_SIZE_LIMIT) as [Hle|Hgt].
      + rewrite Write_cycle_room in H by assumption. discriminate H.
      + rewrite Write_cycle_full in H by (assumption || lia). discriminate H. }
  split; [intros; eapply writer_stays_blocked; eassumption|].
  intros; eapply writer_released; eassumption.
Qed.

End System.

(** ** The pipe theorems at concrete pipes *)

Lemma C3_write_cycle_witness :
  Write_cycle [Byte.x02] (ensureBuf (mkPipe (Some [Byte.x01]) false 0 0)) =
    (mkPipe (Some [Byte.x01; Byte.x02]) false 0 0, [Broadcast],
     Return (RetWrite 1 None)) /\
  Write_cycle [Byte.x02] (ensureBuf (mkPipe None true 0 0)) =
    (mkPipe (Some []) true 0 0, [], Return (RetWrite 0 (Some ErrClosedPipe))).
Proof.
  destruct (C3_write_cycle Demo.keepAll [Byte.x02]) as (_ & H1 & H2 & _).
  split.
  - apply (H2 (mkPipe (Some [Byte.x01]) false 0 0)); [reflexivity|].
    vm_compute. discriminate.
  - apply (H1 (mkPipe None true 0 0)). reflexivity.
Defined.

Lemma C10_ceiling_overshoot_witness :
  exists p',
    Write_cycle [Byte.x02] (ensureBuf (mkPipe (Some [Byte.x01]) false 0 0)) =
      (p', [Broadcast], Return (RetWrite 1 None)) /\
    contents p' = [Byte.x01; Byte.x02].
Proof.
  destruct (C10_ceiling_overshoot [Byte.x02]) as [H _].
  destruct (H (mkPipe (Some [Byte.x01]) false 0 0)) as (p' & Hw & Hc & _).
  - reflexivity.
  - vm_compute. discriminate.
  - exists p'. split; [exact Hw | exact Hc].
Defined.

Lemma C2_close_semantics_witness :
  exists s1,
    step Demo.keepAll (Run 1) Demo.closing = Some s1 /\
    threads s1 !! 1%nat = Some (Returned (RetClose None)) /\
    closed (pipe s1) = true /\
    threads s1 !! 0%nat = Some (Woken (CallWrite [Byte.x02])).
Proof.
  destruct (C2_close_semantics Demo.keepAll Demo.closing 1 eq_refl eq_refl)
    as (s1 & H1 & H2 & H3 & _ & H5 & _).
  exists s1. repeat split; try assumption. apply H5. reflexivity.
Defined.


Lemma C9_drained_before_deadline_witness :
  Read_cycle 10 4 (ensureBuf (mkPipe None true 5 0)) =
    (mkPipe (Some []) true 5 0, [], Return (RetRead [] (Some EOF))) /\
  WriteTo_cycle Demo.keepAll 10 [] 7 (ensureBuf (mkPipe None true 5 0)) =
    ((mkPipe (Some []) true 5 0, [], Return (RetWriteTo 0 (Some EOF))), [], 7).
Proof.
  destruct (C9_drained_before_deadline Demo.keepAll 10 4 [] 7 (mkPipe None true 5 0)
              eq_refl eq_refl) as (H1 & H2 & _).
  split; [exact H1 | exact H2].
Defined.

End PipeProps.

(** * Properties of the handshake code *)

Module HandshakeProps.

Import Client.

Lemma copy_length {A} (dst src : list A) : length (copy dst src) = length dst.
Proof.
  unfold copy. rewrite length_app, length_take, length_drop. lia.
Qed.

Lemma slice_Some {A} (lo hi : nat) (s : list A) :
  (lo <= hi <= length s)%nat -> slice lo hi s = Some (firstn (hi - lo) (skipn lo s)).
Proof.
  intros [H1 H2]. unfold slice.
  apply Nat.leb_le in H1, H2. rewrite H1, H2. reflexivity.
Qed.

Lemma string_of_list_ascii_length (l : list ascii) :
  String.length (string_of_list_ascii l) = length l.
Proof. induction l; cbn; congruence. Qed.

Lemma list_ascii_of_bytes (l : list byte) :
  list_ascii_of_string (string_of_list_byte l) = List.map ascii_of_byte l.
Proof. unfold string_of_list_byte. apply list_ascii_of_string_of_list_ascii. Qed.

(** The letter stored for a draw [r] out of 26. *)
Lemma letter_is_lower (r : Z) :
  0 <= r < 26 ->
  isLowerLetter (ascii_of_byte (byte_of_int (int_of_char "a" + r))) = true.
Proof.
  intros Hr. unfold byte_of_int. rewrite ascii_of_byte_of_ascii.
  change (int_of_char "a") with 97.
  rewrite Z.mod_small by lia.
  unfold isLowerLetter. rewrite N_ascii_embedding by lia.
  apply andb_true_iff. split; apply N.leb_le; lia.
Qed.

(** ** The search for the key share *)

Lemma rangeKeyShares_none (ks : list KeyShare) : forall j idx,
  Forall (fun k => Group k <> X25519) ks -> rangeKeyShares j ks idx = idx.
Proof.
  induction ks as [|k ks IH]; intros j idx Hall; cbn; [reflexivity|].
  inversion Hall as [|? ? Hk Hks]; subst.
  destruct (Z.eqb_spec (Group k) X25519); [contradiction|]. apply IH, Hks.
Qed.

Lemma rangeKeyShares_last (ks : list KeyShare) : forall j idx m k,
  ks !! m = Some k -> Group k = X25519 ->
  (forall m' k', (m < m')%nat -> ks !! m' = Some k' -> Group k' <> X25519) ->
  rangeKeyShares j ks idx = (j + m)%nat.
Proof.
  induction ks as [|k0 ks IH]; intros j idx m k Hm Hk Hlast; [discriminate|].
  destruct m as [|m]; cbn in Hm |- *.
  - injection Hm as ->. rewrite Hk, Z.eqb_refl.
    rewrite rangeKeyShares_none; [lia|].
    apply Forall_lookup_2. intros i x Hi. apply (Hlast (S i) x); [lia|exact Hi].
  - rewrite (IH (S j) _ m k Hm Hk); [lia|].
    intros m' k' Hlt Hm'. apply (Hlast (S m') k'); [lia|exact Hm'].
Qed.

Lemma rangeExtensions_none (exts : list TLSExtension) : forall i e k,
  Forall (fun x => isKeyShare x = false) exts -> rangeExtensions i exts e k = (e, k).
Proof.
  induction exts as [|x exts IH]; intros i e k Hall; cbn; [reflexivity|].
  inversion Hall as [|? ? Hx Hxs]; subst.
  destruct x; [discriminate|]. apply IH, Hxs.
Qed.

Lemma rangeExtensions_last (exts : list TLSExtension) : forall i e k m ks,
  exts !! m = Some (KeyShareExtension ks) ->
  (forall m' x, (m < m')%nat -> exts !! m' = Some x -> isKeyShare x = false) ->
  exists k0, rangeExtensions i exts e k = ((i + m)%nat, rangeKeyShares 0 ks k0).
Proof.
  induction exts as [|x exts IH]; intros i e k m ks Hm Hlast; [discriminate|].
  destruct m as [|m]; cbn in Hm.
  - injection Hm as ->. cbn. exists k.
    rewrite rangeExtensions_none; [f_equal; lia|].
    apply Forall_lookup_2. intros j x Hj. apply (Hlast (S j) x); [lia|exact Hj].
  - assert (Hlast' : forall m' y, (m < m')%nat -> exts !! m' = Some y -> isKeyShare y = false).
    { intros m' y Hlt Hy. apply (Hlast (S m') y); [lia|exact Hy]. }
    destruct x as [ks0|id]; cbn.
    + destruct (IH (S i) i (rangeKeyShares 0 ks0 k) m ks Hm Hlast') as [k0 ->].
      exists k0. f_equal. lia.
    + destruct (IH (S i) e k m ks Hm Hlast') as [k0 ->].
      exists k0. f_equal. lia.
Qed.

Lemma overwrite_without_key_share (exts : list TLSExtension) (data : list byte) :
  Forall (fun x => isKeyShare x = false) exts ->
  findKeyShare exts = (0%nat, 0%nat) /\
  overwriteKeyShare exts 0 0 data =
    inl (match exts with
         | [] => IndexOutOfRange 0 0
         | _ :: _ => TypeAssertion 0
         end).
Proof.
  intros Hall. split; [apply rangeExtensions_none, Hall|].
  destruct exts as [|x exts]; [reflexivity|].
  inversion Hall as [|? ? Hx _]; subst. destruct x; [discriminate|reflexivity].
Qed.

Section WithWorld.

Context {World : Type} `{Ext : Externals World}.

(** ** The monad *)

Abbreviation M := (@M World).
Abbreviation state := (@state World).

Lemma bind_Ok {A B} (m : M A) (k : A -> M B) st a st1 :
  m st = Ok a st1 -> bind m k st = k a st1.
Proof. intros H. unfold bind. rewrite H. reflexivity. Qed.

Lemma bind_inv {A B} (m : M A) (k : A -> M B) st b st' :
  bind m k st = Ok b st' -> exists a st1, m st = Ok a st1 /\ k a st1 = Ok b st'.
Proof. unfold bind. destruct (m st) as [a st1|]; [eauto|discriminate]. Qed.

(** ** randInt and randomServerName *)

Lemma randInt_range (n : Z) st :
  0 < n -> exists v st', randInt n st = Ok v st' /\ 0 <= v < n /\ log st' = log st.
Proof.
  intros Hn. unfold randInt. destruct (Z.leb_spec n 0); [lia|].
  unfold bind, liftW.
  destruct (cryptoRand_Int n (world st)) as [[v|e] w] eqn:E; cbn.
  - exists v, (mkState w (log st)). repeat split; try reflexivity;
      eapply cryptoRand_Int_range; eassumption.
  - pose proof (rand_Intn_range n w Hn) as Hr.
    destruct (rand_Intn n w) as [v w'] eqn:E'. cbn in Hr.
    exists v, (mkState w' (log st)). repeat split; try reflexivity; lia.
Qed.

Lemma fillName_spec (todo : nat) : forall st,
  exists name st', fillName 26 todo st = Ok name st' /\
                  length name = todo /\
                  Forall (fun c => isLowerLetter (ascii_of_byte c) = true) name /\
                  log st' = log st.
Proof.
  induction todo as [|k IH]; intros st; cbn [fillName].
  - exists [], st. repeat split. constructor.
  - destruct (randInt_range 26 st) as (r & st1 & Hr & Hrange & Hl1); [lia|].
    destruct (IH st1) as (rest & st2 & Hf & Hlen & Hall & Hl2).
    exists (byte_of_int (int_of_char "a" + r) :: rest), st2.
    split.
    { rewrite (bind_Ok _ _ _ _ _ Hr), (bind_Ok _ _ _ _ _ Hf). reflexivity. }
    split; [cbn; congruence|]. split; [|congruence].
    constructor; [apply letter_is_lower, Hrange|exact Hall].
Qed.

Lemma randItem_spec (l : list string) st :
  l <> [] -> exists x st', randItem l st = Ok x st' /\ In x l /\ log st' = log st.
Proof.
  intros Hne. unfold randItem.
  destruct (randInt_range (Z.of_nat (length l)) st) as (i & st1 & Hr & Hrange & Hl1).
  { destruct l; [congruence|cbn; lia]. }
  rewrite (bind_Ok _ _ _ _ _ Hr).
  destruct (l !! Z.to_nat i) as [x|] eqn:E.
  - destruct (Z.leb_spec 0 i); [|lia].
    exists x, st1. split; [reflexivity|]. split; [|exact Hl1].
    apply list_elem_of_In. eapply list_elem_of_lookup_2, E.
  - apply lookup_ge_None in E. lia.
Qed.

(** randomServerName always returns, and logs nothing. *)
Lemma randomServerName_total (st : state) :
  exists name st', randomServerName st = Ok name st' /\ log st' = log st.
Proof.
  unfold randomServerName.
  destruct (randInt_range 10 st) as (r & st1 & Hr & _ & Hl1); [lia|].
  change (int_of_char "z" - int_of_char "a" + 1) with 26.
  destruct (fillName_spec (Z.to_nat (3 + r)) st1) as (name & st2 & Hf & _ & _ & Hl2).
  destruct (randItem_spec topLevelDomains st2) as (tld & st3 & Hi & _ & Hl3);
    [discriminate|].
  eexists _, st3.
  rewrite (bind_Ok _ _ _ _ _ Hr), (bind_Ok _ _ _ _ _ Hf), (bind_Ok _ _ _ _ _ Hi).
  split; [reflexivity|congruence].
Qed.

(** C7. Every call of randomServerName returns (it does not panic) a string
    label + "." + tld where the label has between 3 and 12 characters, all
    of them lower-case ASCII letters, and tld is an element of
    topLevelDomains. *)
Theorem C7_randomServerName (st : state) :
  exists label tld st',
    randomServerName st = Ok (label ++ "." ++ tld)%string st' /\
    (3 <= String.length label <= 12)%nat /\
    Forall (fun c => isLowerLetter c = true) (list_ascii_of_string label) /\
    In tld topLevelDomains /\
    log st' = log st.
Proof.
  unfold randomServerName.
  destruct (randInt_range 10 st) as (r & st1 & Hr & Hrange & Hl1); [lia|].
  change (int_of_char "z" - int_of_char "a" + 1) with 26.
  destruct (fillName_spec (Z.to_nat (3 + r)) st1) as (name & st2 & Hf & Hlen & Hall & Hl2).
  destruct (randItem_spec topLevelDomains st2) as (tld & st3 & Hi & Hin & Hl3);
    [discriminate|].
  exists (string_of_list_byte name), tld, st3.
  split.
  { rewrite (bind_Ok _ _ _ _ _ Hr), (bind_Ok _ _ _ _ _ Hf), (bind_Ok _ _ _ _ _ Hi).
    reflexivity. }
  split.
  { unfold string_of_list_byte. rewrite string_of_list_ascii_length, length_map, Hlen. lia. }
  split.
  { rewrite list_ascii_of_bytes. apply Forall_map. exact Hall. }
  split; [exact Hin|congruence].
Qed.

(** ** buildClientHello *)

(** C8. The search runs over the whole extension list and, in each
    key-share extension, over the whole key-share list: the extension index
    it ends with is that of the last KeyShareExtension, and when that
    extension has an X25519 entry the key-share index is that of its last
    X25519 entry. With no KeyShareExtension in the list both indices stay 0
    and line 119 panics: on the type assertion of Extensions[0] when the
    list has an element, on the index itself when it is empty; so
    buildClientHello panics and returns no error. *)
Theorem C8_key_share_search :
  (forall exts m ks,
     exts !! m = Some (KeyShareExtension ks) ->
     (forall m' x, (m < m')%nat -> exts !! m' = Some x -> isKeyShare x = false) ->
     (findKeyShare exts).1 = m /\
     forall j k,
       ks !! j = Some k -> Group k = X25519 ->
       (forall j' k', (j < j')%nat -> ks !! j' = Some k' -> Group k' <> X25519) ->
       (findKeyShare exts).2 = j) /\
  (forall exts data,
     Forall (fun x => isKeyShare x = false) exts ->
     findKeyShare exts = (0%nat, 0%nat) /\
     overwriteKeyShare exts 0 0 data =
       inl (match exts with
            | [] => IndexOutOfRange 0 0
            | _ :: _ => TypeAssertion 0
            end)) /\
  (forall b fields (st : state) u w u',
     BuildHandshakeState (UClient (serverName fields) (helloIDOf b)) (world st)
       = (u, None, w) ->
     SetClientRandom (random fields) u = (u', None) ->
     Forall (fun x => isKeyShare x = false) (Extensions u') ->
     exists p, buildClientHello b fields st = Panic p /\
               (Extensions u' <> [] -> p = TypeAssertion 0)).
Proof.
  split.
  { intros exts m ks Hm Hlast. unfold findKeyShare.
    destruct (rangeExtensions_last exts 0 0 0 m ks Hm Hlast) as [k0 ->]. cbn.
    split; [reflexivity|]. intros j k Hj Hk Hjl.
    apply (rangeKeyShares_last ks 0 k0 j k Hj Hk Hjl). }
  split; [intros; apply overwrite_without_key_share; assumption|].
  intros b fields st u w u' Hb Hr Hno.
  destruct (overwrite_without_key_share (Extensions u') (x25519KeyShare fields) Hno)
    as [Hf Ho].
  eexists. unfold buildClientHello, buildState, bind, emit, liftW.
  cbn -[findKeyShare overwriteKeyShare copy zeros].
  rewrite Hb. cbn -[findKeyShare overwriteKeyShare copy zeros].
  rewrite Hr. cbn -[findKeyShare overwriteKeyShare copy zeros].
  rewrite Hf, Ho. split; [reflexivity|].
  destruct (Extensions u'); [congruence|reflexivity].
Qed.

(** ** The log only grows *)

Lemma grows_ret {A} (a : A) : grows (@ret World A a).
Proof. intros st x st' [= _ <-]. reflexivity. Qed.

Lemma grows_throw {A} (p : panic) : grows (@throw World A p).
Proof. intros st x st' [=]. Qed.

Lemma grows_emit (e : event) : grows (@emit World e).
Proof. intros st x st' [= _ <-]. cbn. apply prefix_app_r. reflexivity. Qed.

Lemma grows_liftW {A} (f : World -> A * World) : grows (liftW f).
Proof.
  intros st x st'. unfold liftW. destruct (f (world st)). intros [= _ <-]. reflexivity.
Qed.

Lemma grows_bind {A B} (m : M A) (k : A -> M B) :
  grows m -> (forall a, grows (k a)) -> grows (bind m k).
Proof.
  intros Hm Hk st b st' H. apply bind_inv in H as (a & st1 & H1 & H2).
  transitivity (log st1); [eapply Hm, H1 | eapply Hk, H2].
Qed.

Ltac grows_step :=
  match goal with
  | |- grows (ret _) => apply grows_ret
  | |- grows (throw _) => apply grows_throw
  | |- grows (emit _) => apply grows_emit
  | |- grows (liftW _) => apply grows_liftW
  | |- grows (bind _ _) => apply grows_bind; [|intros]
  | |- grows (match ?x with _ => _ end) => destruct x
  | |- grows (if ?x then _ else _) => destruct x
  end.

Lemma grows_Write b : grows (Write b).
Proof. unfold Write. repeat grows_step. Qed.

Lemma grows_Read buf : grows (Read buf).
Proof. unfold Read. repeat grows_step. Qed.

Lemma grows_recoverKey buf key : grows (recoverKey buf key).
Proof.
  unfold recoverKey, sliceM, Decrypt.
  apply grows_bind; [repeat grows_step|]. intros head.
  apply grows_bind; [repeat grows_step|]. intros extra.
  destruct (appendTo buf 38 head extra). repeat grows_step.
Qed.

Lemma grows_drain todo : forall buf, grows (drain todo buf).
Proof.
  induction todo as [|k IH]; intros buf; cbn [drain]; [apply grows_ret|].
  apply grows_bind; [apply grows_Read|]. intros [b [e|]]; [apply grows_ret|apply IH].
Qed.

Lemma grows_recoverAndDrain key buf secret : grows (recoverAndDrain key buf secret).
Proof.
  unfold recoverAndDrain. apply grows_bind; [apply grows_recoverKey|].
  intros [[b ks] [e|]]; [apply grows_ret|].
  apply grows_bind; [apply grows_drain|]. intros; apply grows_ret.
Qed.

(** ** The server name *)

Lemma buildState_Ok (u : UConn) (st : state) :
  exists u' e w',
    BuildHandshakeState u (world st) = (u', e, w') /\
    buildState u st =
      Ok (u', e) (mkState w' (log st ++ [EvBuildHandshakeState (ServerName u)])).
Proof.
  destruct (BuildHandshakeState u (world st)) as [[u' e] w'] eqn:E.
  exists u', e, w'. split; [reflexivity|].
  unfold buildState, bind, emit, liftW. cbn. rewrite E. reflexivity.
Qed.

Lemma grows_buildState u : grows (buildState u).
Proof. unfold buildState. repeat grows_step. Qed.

(** Whenever buildClientHello returns, the first thing it did was to have
    utls build a hello for [fields.serverName]. *)
Lemma buildClientHello_log b fields (st : state) r st' :
  buildClientHello b fields st = Ok r st' ->
  exists rest, log st' = log st ++ EvBuildHandshakeState (serverName fields) :: rest.
Proof.
  unfold buildClientHello. intros H.
  destruct (buildState_Ok (UClient (serverName fields) (helloIDOf b)) st)
    as (u1 & e1 & w1 & _ & Hb).
  rewrite (bind_Ok _ _ _ _ _ Hb) in H. cbn [ServerName UClient] in H.
  assert (Hg : forall (m : M (list byte * option error)),
             grows m ->
             m (mkState w1 (log st ++ [EvBuildHandshakeState (serverName fields)]))
               = Ok r st' ->
             exists rest,
               log st' = log st ++ EvBuildHandshakeState (serverName fields) :: rest).
  { intros m Hm Hr. destruct (Hm _ _ _ Hr) as [l Hl]. cbn in Hl.
    exists l. rewrite Hl, <- app_assoc. reflexivity. }
  destruct e1 as [e|].
  { apply (Hg _ (grows_ret _) H). }
  destruct (SetClientRandom (random fields) u1) as [u2 [e|]].
  { apply (Hg _ (grows_ret _) H). }
  destruct (findKeyShare (Extensions (set_HelloSessionId
              (copy (zeros 32) (sessionId fields)) u2))) as [ei ki].
  destruct (overwriteKeyShare _ ei ki (x25519KeyShare fields)) as [p|exts].
  { discriminate. }
  refine (Hg _ _ H). apply grows_bind; [apply grows_buildState|].
  intros [u [e|]]; apply grows_ret.
Qed.

Lemma helloFields_spec (authInfo : AuthInfo) payload (st : state) :
  exists fields st',
    helloFields authInfo payload st = Ok fields st' /\
    log st' = log st /\
    (EqualFold (MockDomain authInfo) "random" = false ->
       serverName fields = MockDomain authInfo /\ st' = st) /\
    (EqualFold (MockDomain authInfo) "random" = true ->
       randomServerName st = Ok (serverName fields) st').
Proof.
  unfold helloFields. cbn [serverName].
  destruct (EqualFold (MockDomain authInfo) "random") eqn:E.
  - destruct (randomServerName_total st) as (name & st' & Hr & Hl).
    eexists _, st'. rewrite (bind_Ok _ _ _ _ _ Hr). split; [reflexivity|].
    split; [exact Hl|]. split; [discriminate|]. intros _. exact Hr.
  - eexists _, st. split; [reflexivity|]. split; [reflexivity|].
    split; [auto|discriminate].
Qed.

Lemma Read_eq (buf : list byte) (st : state) :
  Read buf st =
    Ok (copy buf (tlsRead (length buf) (world st)).1.1,
        (tlsRead (length buf) (world st)).1.2)
       (mkState (tlsRead (length buf) (world st)).2 (log st ++ [EvRead])).
Proof.
  unfold Read, bind, emit, liftW. cbn [world log].
  destruct (tlsRead (length buf) (world st)) as [[data e] w']. reflexivity.
Qed.

(** What a Handshake that got as far as the first read has done. *)
Lemma sendHello_inv b (authInfo : AuthInfo) (st : state) x st1 :
  sendHello b authInfo st = Ok x st1 ->
  exists fields st2 rest,
    helloFields authInfo (makeAuthenticationPayload authInfo (world st)).1.1
      (mkState (makeAuthenticationPayload authInfo (world st)).2 (log st))
      = Ok fields st2 /\
    log st1 = log st ++ EvBuildHandshakeState (serverName fields) :: rest /\
    forall buf secret,
      x = inr (buf, secret) ->
      length buf = 1024%nat /\
      secret = (makeAuthenticationPayload authInfo (world st)).1.2.
Proof.
  unfold sendHello. intros H.
  apply bind_inv in H as ([payload secret] & st0 & H0 & H).
  unfold liftW in H0.
  destruct (makeAuthenticationPayload authInfo (world st)) as [[pl sec] w0] eqn:E.
  injection H0 as -> -> <-. cbn [fst snd].
  destruct (helloFields_spec authInfo payload (mkState w0 (log st)))
    as (fields & st2 & Hf & Hl2 & _).
  rewrite (bind_Ok _ _ _ _ _ Hf) in H.
  apply bind_inv in H as ([ch err] & st3 & Hb & H).
  apply buildClientHello_log in Hb as [rest Hb]. rewrite Hl2 in Hb. cbn [log] in Hb.
  assert (Hg : forall (m : M (error + list byte * list byte)),
             grows m -> m st3 = Ok x st1 ->
             exists rest', log st1 = log st ++
                             EvBuildHandshakeState (serverName fields) :: rest').
  { intros m Hm Hr. destruct (Hm _ _ _ Hr) as [l Hl].
    exists (rest ++ l). rewrite Hl, Hb, <- app_assoc. reflexivity. }
  exists fields, st2.
  destruct err as [e|].
  { destruct (Hg _ (grows_ret _) H) as [rest' Hr]. exists rest'.
    split; [exact Hf|]. split; [exact Hr|].
    intros buf s0 ->. discriminate. }
  match type of H with ?m st3 = _ => assert (Hrest : grows m) end.
  { apply grows_bind; [apply grows_Write|]. intros [e|]; [apply grows_ret|].
    apply grows_bind; [apply grows_Read|]. intros [bf [e|]]; apply grows_ret. }
  destruct (Hg _ Hrest H) as [rest' Hr]. exists rest'.
  split; [exact Hf|]. split; [exact Hr|].
  intros buf s0 ->.
  apply bind_inv in H as (werr & st4 & _ & H).
  destruct werr as [e|]; [discriminate|].
  apply bind_inv in H as ([bf rerr] & st5 & HR & H).
  destruct rerr as [e|]; [discriminate|].
  injection H as -> -> _.
  split; [|reflexivity].
  rewrite Read_eq in HR. injection HR as <- _ _.
  rewrite copy_length. apply repeat_length.
Qed.

(** ** Key recovery *)

(** The bytes of ranges [6,38) and [84,116), one after the other. *)
Lemma blob_length (buf : list byte) :
  length buf = 1024%nat ->
  length (array_slice 6 38 buf ++ array_slice 84 116 buf) = 64%nat.
Proof.
  intros Hlen. unfold array_slice.
  rewrite length_app, !length_take, !length_drop. lia.
Qed.

Lemma recoverKey_spec (buf key : list byte) (st : state) :
  length buf = 1024%nat ->
  let blob := array_slice 6 38 buf ++ array_slice 84 116 buf in
  let nonce := firstn 12 blob in
  let ciphertextWithTag := firstn 48 (skipn 12 blob) in
  recoverKey buf key st =
    Ok (firstn 38 buf ++ array_slice 84 116 buf ++ skipn 70 buf,
        (AESGCMDecrypt nonce key ciphertextWithTag).1,
        (AESGCMDecrypt nonce key ciphertextWithTag).2)
       (mkState (world st) (log st ++ [EvDecrypt nonce key ciphertextWithTag])).
Proof.
  intros Hlen blob nonce ct.
  assert (Hblob : length blob = 64%nat) by (apply blob_length, Hlen).
  assert (Hextra : length (array_slice 84 116 buf) = 32%nat).
  { unfold array_slice. rewrite length_take, length_drop. lia. }
  unfold recoverKey, appendTo, sliceM, bind.
  rewrite (slice_Some 6 38 buf) by lia.
  change (firstn (38 - 6) (skipn 6 buf)) with (array_slice 6 38 buf).
  cbv beta iota. unfold ret at 1.
  rewrite (slice_Some 84 116 buf) by lia.
  change (firstn (116 - 84) (skipn 84 buf)) with (array_slice 84 116 buf).
  cbv beta iota. unfold ret at 1. rewrite Hextra, Hlen.
  change (38 + 32 <=? 1024)%nat with true. cbv beta iota.
  fold blob. rewrite (slice_Some 0 12 blob) by lia.
  cbv beta iota. unfold ret at 1.
  rewrite (slice_Some 12 60 blob) by lia.
  cbv beta iota. unfold ret at 1.
  change (firstn (12 - 0) (skipn 0 blob)) with nonce.
  change (firstn (60 - 12) (skipn 12 blob)) with ct.
  unfold Decrypt, bind, emit, ret. cbv beta iota.
  destruct (AESGCMDecrypt nonce key ct). reflexivity.
Qed.

Lemma Handshake_after_hello b (authInfo : AuthInfo) (st : state) buf secret st1 :
  sendHello b authInfo st = Ok (inr (buf, secret)) st1 ->
  Handshake b authInfo st = recoverAndDrain (zeros 32) buf secret st1.
Proof. intros H. unfold Handshake. rewrite (bind_Ok _ _ _ _ _ H). reflexivity. Qed.

Lemma blob_parts (buf : list byte) :
  length buf = 1024%nat ->
  let blob := array_slice 6 38 buf ++ array_slice 84 116 buf in
  firstn 12 blob = array_slice 6 18 buf /\
  firstn 48 (skipn 12 blob) = array_slice 18 38 buf ++ array_slice 84 112 buf.
Proof.
  intros Hlen blob. subst blob. unfold array_slice.
  change (38 - 6)%nat with 32%nat. change (116 - 84)%nat with 32%nat.
  change (18 - 6)%nat with 12%nat. change (38 - 18)%nat with 20%nat.
  change (112 - 84)%nat with 28%nat.
  assert (H1 : length (firstn 32 (skipn 6 buf)) = 32%nat)
    by (rewrite length_take, length_drop; lia).
  split.
  - rewrite take_app_le by lia. rewrite take_take. reflexivity.
  - rewrite drop_app_le by lia. rewrite take_app.
    rewrite skipn_firstn_comm, drop_drop. change (32 - 12)%nat with 20%nat.
    change (6 + 12)%nat with 18%nat.
    rewrite length_take, length_drop, take_take, Hlen.
    change (20 `min` (1024 - 18))%nat with 20%nat.
    change (48 - 20)%nat with 28%nat. rewrite take_take. reflexivity.
Qed.

(** C1 (amended). When the first read of Handshake succeeds, the buffer
    has 1024 bytes; ranges [6,38) and [84,116) are concatenated into a blob
    of 64 bytes; its first 12 bytes (buffer bytes [6,18)) are the nonce and
    its next 48 bytes, blob[12:60] (buffer bytes [18,38) then [84,112)),
    are the ciphertext with tag; these two and the shared secret are what
    decryption is called with. The last 4 bytes of the blob are not used. *)
Theorem C1_key_material b (authInfo : AuthInfo) (st : state) buf secret st1 :
  sendHello b authInfo st = Ok (inr (buf, secret)) st1 ->
  let blob := array_slice 6 38 buf ++ array_slice 84 116 buf in
  let nonce := firstn 12 blob in
  let ciphertextWithTag := firstn 48 (skipn 12 blob) in
  let key := array_slice 0 32 secret in
  length buf = 1024%nat /\ length blob = 64%nat /\
  length nonce = 12%nat /\ length ciphertextWithTag = 48%nat /\
  nonce = array_slice 6 18 buf /\
  ciphertextWithTag = array_slice 18 38 buf ++ array_slice 84 112 buf /\
  Handshake b authInfo st = recoverAndDrain (zeros 32) buf secret st1 /\
  exists buf',
    recoverKey buf key st1 =
      Ok (buf', (AESGCMDecrypt nonce key ciphertextWithTag).1,
                (AESGCMDecrypt nonce key ciphertextWithTag).2)
         (mkState (world st1) (log st1 ++ [EvDecrypt nonce key ciphertextWithTag])).
Proof.
  intros H blob nonce ct key.
  destruct (sendHello_inv _ _ _ _ _ H) as (_ & _ & _ & _ & _ & Hbuf).
  destruct (Hbuf buf secret eq_refl) as [Hlen _].
  pose proof (blob_length buf Hlen) as Hblob.
  destruct (blob_parts buf Hlen) as [Hn Hc].
  split; [exact Hlen|]. split; [exact Hblob|].
  split; [subst nonce blob; rewrite length_take, Hblob; reflexivity|].
  split; [subst ct blob; rewrite length_take, length_drop, Hblob; reflexivity|].
  split; [exact Hn|]. split; [exact Hc|].
  split; [apply Handshake_after_hello, H|].
  eexists. apply recoverKey_spec, Hlen.
Qed.

(** C5. Once the key is decrypted, Handshake reads twice more. If the
    first of these reads fails, that error is returned after one read; if
    it succeeds, the second read is made and its error, or nil, is
    returned: success is reached only after exactly two reads. In each
    case the session key already recovered is what comes back with it. *)
Theorem C5_two_more_reads b (authInfo : AuthInfo) (st : state)
    buf secret st1 buf1 keySlice st2 :
  sendHello b authInfo st = Ok (inr (buf, secret)) st1 ->
  recoverKey buf (array_slice 0 32 secret) st1 = Ok (buf1, keySlice, None) st2 ->
  let key := copy (zeros 32) keySlice in
  let r1 := tlsRead (length buf1) (world st2) in
  let r2 := tlsRead (length buf1) r1.2 in
  match r1.1.2 with
  | Some e =>
    Handshake b authInfo st =
      Ok (key, Some e) (mkState r1.2 (log st2 ++ [EvRead]))
  | None =>
    Handshake b authInfo st =
      Ok (key, r2.1.2) (mkState r2.2 (log st2 ++ [EvRead; EvRead]))
  end.
Proof.
  intros H Hk key r1 r2.
  rewrite (Handshake_after_hello _ _ _ _ _ _ H).
  unfold recoverAndDrain. rewrite (bind_Ok _ _ _ _ _ Hk).
  cbn [drain].
  assert (HR1 : Read buf1 st2 =
                  Ok (copy buf1 r1.1.1, r1.1.2) (mkState r1.2 (log st2 ++ [EvRead])))
    by apply Read_eq.
  assert (HR2 : Read (copy buf1 r1.1.1) (mkState r1.2 (log st2 ++ [EvRead])) =
                  Ok (copy (copy buf1 r1.1.1) r2.1.1, r2.1.2)
                     (mkState r2.2 (log st2 ++ [EvRead; EvRead]))).
  { rewrite Read_eq, copy_length. cbn [world log]. rewrite <- app_assoc. reflexivity. }
  destruct (r1.1.2) as [e|] eqn:E1.
  - unfold bind. rewrite HR1. reflexivity.
  - unfold bind. rewrite HR1, HR2. destruct (r2.1.2); reflexivity.
Qed.

(** ** EqualFold against a lower-case ASCII word *)

Lemma lower_letter_code (c : ascii) :
  isLowerLetter c = true -> (97 <= nat_of_ascii c <= 122)%nat.
Proof.
  unfold isLowerLetter, nat_of_ascii. rewrite andb_true_iff, !N.leb_le. lia.
Qed.

Lemma fold_byte (a b : nat) :
  (a < 128)%nat -> (97 <= b <= 122)%nat ->
  ((128 <=? a) || (128 <=? b))%nat = false /\
  (((a =? b)%nat = true \/
    ((65 <=? Nat.min a b) && (Nat.min a b <=? 90) && (Nat.max a b =? Nat.min a b + 32))%nat
      = true)
   <-> lowerCode a = b).
Proof.
  intros Ha Hb. split.
  - apply orb_false_iff. split; apply Nat.leb_gt; lia.
  - unfold lowerCode.
    rewrite Nat.eqb_eq, !andb_true_iff, !Nat.leb_le, Nat.eqb_eq.
    destruct ((65 <=? a) && (a <=? 90))%nat eqn:E.
    + apply andb_true_iff in E as [E1 E2]. apply Nat.leb_le in E1, E2. lia.
    + apply andb_false_iff in E as [E|E]; apply Nat.leb_gt in E; lia.
Qed.

Lemma EqualFold_lower_word (word : string) :
  Forall (fun c => isLowerLetter c = true) (list_ascii_of_string word) ->
  forall s,
    Forall (fun c => (nat_of_ascii c < 128)%nat) (list_ascii_of_string s) ->
    (EqualFold s word = true <-> foldsTo s word).
Proof.
  induction word as [|b t IH]; intros Hw s Hs.
  - destruct s; cbn; unfold foldsTo; cbn; split; intros; try reflexivity; discriminate.
  - cbn in Hw. inversion Hw as [|? ? Hb Ht]; subst.
    destruct s as [|a s'].
    { cbn; unfold foldsTo; cbn; split; intros; discriminate. }
    cbn in Hs. inversion Hs as [|? ? Ha Hs']; subst.
    apply lower_letter_code in Hb.
    destruct (fold_byte _ _ Ha Hb) as [Hascii Hfold].
    cbn [EqualFold]. rewrite Hascii.
    assert (Hcons : foldsTo (String a s') (String b t) <->
                    lowerCode (nat_of_ascii a) = nat_of_ascii b /\ foldsTo s' t).
    { unfold foldsTo. cbn. split; [intros [= ? ?]; auto|intros [-> ->]; reflexivity]. }
    rewrite Hcons, <- (IH Ht s' Hs'), <- Hfold.
    destruct (nat_of_ascii a =? nat_of_ascii b)%nat.
    + tauto.
    + destruct ((65 <=? _) && _ && _)%nat; split; intros; try tauto;
        try discriminate.
Qed.

(** C6. In a Handshake that returns, the server name under which utls
    builds the ClientHello is authInfo.MockDomain, unless
    strings.EqualFold(MockDomain, "random") holds: then it is the name that
    randomServerName generated. For an ASCII MockDomain, EqualFold with
    "random" holds exactly when MockDomain with its upper-case letters
    lowered is "random". *)
Theorem C6_server_name b (authInfo : AuthInfo) (st st' : state) r :
  Handshake b authInfo st = Ok r st' ->
  exists name rest,
    log st' = log st ++ EvBuildHandshakeState name :: rest /\
    (EqualFold (MockDomain authInfo) "random" = false -> name = MockDomain authInfo) /\
    (EqualFold (MockDomain authInfo) "random" = true ->
       exists st2,
         randomServerName
           (mkState (makeAuthenticationPayload authInfo (world st)).2 (log st))
         = Ok name st2) /\
    (Forall (fun c => (nat_of_ascii c < 128)%nat)
            (list_ascii_of_string (MockDomain authInfo)) ->
     (EqualFold (MockDomain authInfo) "random" = true
      <-> foldsTo (MockDomain authInfo) "random")).
Proof.
  unfold Handshake. intros H.
  apply bind_inv in H as (x & st1 & Hs & Hk).
  destruct (sendHello_inv _ _ _ _ _ Hs) as (fields & st2 & rest & Hf & Hl & _).
  assert (Hgrow : log st1 `prefix_of` log st').
  { destruct x as [e|[buf secret]].
    - apply (grows_ret _ _ _ _ Hk).
    - apply (grows_recoverAndDrain _ _ _ _ _ _ Hk). }
  destruct Hgrow as [l Hl'].
  exists (serverName fields), (rest ++ l).
  split; [rewrite Hl', Hl, <- app_assoc; reflexivity|].
  destruct (helloFields_spec authInfo
              (makeAuthenticationPayload authInfo (world st)).1.1
              (mkState (makeAuthenticationPayload authInfo (world st)).2 (log st)))
    as (fields' & st2' & Hf' & _ & Hno & Hyes).
  rewrite Hf in Hf'. injection Hf' as <- <-.
  split; [intros E; apply (Hno E)|].
  split; [intros E; eexists; apply (Hyes E)|].
  intros Hascii. apply EqualFold_lower_word; [|exact Hascii].
  repeat constructor.
Qed.

End WithWorld.

(** ** The handshake theorems in the small world *)

Import Demo.

Lemma served_hello :
  sendHello chrome (domain "example.com") stServed = Ok (inr (helloBuf, helloSecret)) helloState.
Proof. vm_compute. reflexivity. Qed.

Lemma served_key :
  recoverKey helloBuf (array_slice 0 32 helloSecret) helloState =
    Ok (firstn 38 helloBuf ++ array_slice 84 116 helloBuf ++ skipn 70 helloBuf,
        repeat Byte.x05 32, None)
       (mkState (world helloState)
          (log helloState ++
             [EvDecrypt (repeat Byte.x05 12) (repeat Byte.x03 32) (repeat Byte.x05 48)])).
Proof. vm_compute. reflexivity. Qed.

Lemma C1_key_material_witness :
  length helloBuf = 1024%nat /\
  length (array_slice 6 38 helloBuf ++ array_slice 84 116 helloBuf) = 64%nat.
Proof.
  destruct (C1_key_material chrome (domain "example.com") stServed
              helloBuf helloSecret helloState served_hello) as (H1 & H2 & _).
  split; [exact H1 | exact H2].
Defined.

(** C1 with a 60-byte blob fails on the served buffer, on both counts: the
    two ranges make 64 bytes, not 60, and what follows the nonce in them
    (52 bytes) is not what decryption receives (48 bytes). *)
Lemma C1_sixty_byte_blob_counterexample :
  let blob := array_slice 6 38 helloBuf ++ array_slice 84 116 helloBuf in
  length blob <> 60%nat /\
  ~ (exists r st',
       recoverKey helloBuf (array_slice 0 32 helloSecret) helloState = Ok r st' /\
       log st' = log helloState ++
                 [EvDecrypt (firstn 12 blob) (array_slice 0 32 helloSecret) (skipn 12 blob)]).
Proof.
  intros blob. split.
  - vm_compute. discriminate.
  - intros (r & st' & H & Hl). rewrite served_key in H. injection H as _ <-.
    vm_compute in Hl. discriminate Hl.
Qed.

Lemma C5_two_more_reads_witness :
  exists st',
    Handshake chrome (domain "example.com") stServed = Ok (repeat Byte.x05 32, None) st' /\
    log st' = log helloState ++
              [EvDecrypt (repeat Byte.x05 12) (repeat Byte.x03 32) (repeat Byte.x05 48);
               EvRead; EvRead].
Proof.
  pose proof (C5_two_more_reads chrome (domain "example.com") stServed
                helloBuf helloSecret helloState _ _ _ served_hello served_key) as H.
  eexists. split; [exact H|]. reflexivity.
Defined.

Lemma served_handshake_random :
  exists r st', Handshake chrome (domain "RanDom") stServed = Ok r st'.
Proof. eexists _, _. vm_compute. reflexivity. Qed.

Lemma C6_server_name_witness :
  exists name rest (st' st2 : @state TestWorld),
    log st' = log stServed ++ EvBuildHandshakeState name :: rest /\
    randomServerName stServed = Ok name st2.
Proof.
  destruct served_handshake_random as (r & st' & H).
  destruct (C6_server_name chrome (domain "RanDom") stServed st' r H)
    as (name & rest & Hlog & _ & Hrandom & _).
  destruct (Hrandom eq_refl) as (st2 & Hname).
  exists name, rest, st', st2. split; [exact Hlog | exact Hname].
Defined.

Lemma C8_key_share_search_witness :
  ((findKeyShare profile).1 = 1%nat /\ (findKeyShare profile).2 = 1%nat) /\
  buildClientHello 7 (mkFields (repeat Byte.x01 32) [] [] "example.com") st0
    = Panic (TypeAssertion 0).
Proof.
  destruct (@C8_key_share_search TestWorld _) as (H1 & _ & H3).
  split.
  - destruct (H1 profile 1%nat
                [mkKeyShare 2570 [Byte.x00]; mkKeyShare X25519 (repeat Byte.x00 32)]
                eq_refl) as [He Hk].
    + intros m' x Hlt Hx.
      destruct m' as [|[|[|m']]]; try lia; try discriminate Hx.
      injection Hx as <-. reflexivity.
    + split; [exact He|].
      apply (Hk 1%nat (mkKeyShare X25519 (repeat Byte.x00 32)) eq_refl eq_refl).
      intros j' k' Hlt Hj. destruct j' as [|[|j']]; try lia. discriminate Hj.
  - destruct (H3 7 (mkFields (repeat Byte.x01 32) [] [] "example.com"%string) st0
                _ _ _ eq_refl eq_refl) as (p & Hp & Ht).
    + repeat constructor.
    + rewrite Hp, Ht; [reflexivity|discriminate].
Defined.

End HandshakeProps.

(** * More on the buffered pipe *)

Module PipeMore.

Import Multiplex PipeProps.

Lemma contents_set_buf b p : contents (set_buf b p) = b.
Proof. reflexivity. Qed.

Lemma contents_allocated p b : buf p = Some b -> contents p = b.
Proof. unfold contents. intros ->. reflexivity. Qed.

(** ** Read gives the bytes in order and loses none *)

(** The four ways a pass of Read can go. *)
Lemma Read_cycle_cases now n p :
  let p0 := ensureBuf p in
  let armed :=
    if IsZero (rDeadline p) then [] else [AfterFunc (Until now (rDeadline p))] in
  (closed p = true /\ contents p = [] /\
   Read_cycle now n p0 = (p0, [], Return (RetRead [] (Some EOF)))) \/
  (~ (closed p = true /\ contents p = []) /\ rDeadline p <> 0 /\ rDeadline p <= now /\
   Read_cycle now n p0 = (p0, [], Return (RetRead [] (Some ErrTimeout)))) \/
  (contents p <> [] /\ (rDeadline p = 0 \/ now < rDeadline p) /\
   Read_cycle now n p0 =
     (set_buf (skipn n (contents p)) p0, armed ++ [Broadcast],
      Return (RetRead (firstn n (contents p)) None))) \/
  (contents p = [] /\ closed p = false /\ (rDeadline p = 0 \/ now < rDeadline p) /\
   Read_cycle now n p0 = (p0, armed, CondWait)).
Proof.
  intros p0 armed. subst p0 armed.
  unfold Read_cycle. rewrite ensureBuf_buf, ensureBuf_closed.
  destruct (closed p && (Buffer.Len (contents p) =? 0))%bool eqn:E.
  { apply closed_drained_test in E as [Hc He]. left. auto. }
  assert (Hnd : ~ (closed p = true /\ contents p = [])).
  { intros H. apply closed_drained_test in H. congruence. }
  unfold deadlineCheck. rewrite ensureBuf_rDeadline. unfold IsZero.
  destruct (Z.eqb_spec (rDeadline p) 0) as [Hz|Hz].
  - destruct (0 <? Buffer.Len (contents p)) eqn:L.
    + apply Len_pos_test in L. right; right; left.
      split; [exact L|]. split; [auto|].
      destruct (contents p); [congruence|reflexivity].
    + right; right; right.
      assert (He : contents p = []).
      { destruct (contents p) eqn:Ec; [reflexivity|].
        assert ((0 <? Buffer.Len (b :: l)) = true) by (apply Len_pos_test; discriminate).
        congruence. }
      split; [exact He|]. split; [|auto].
      destruct (closed p) eqn:Hc; [|reflexivity]. exfalso. auto.
  - destruct (Z.leb_spec (Until now (rDeadline p)) 0) as [Hle|Hgt].
    + apply (proj1 (Until_nonpos _ _)) in Hle. right; left. auto.
    + assert (Hfut : now < rDeadline p).
      { destruct (Z.lt_ge_cases now (rDeadline p)); [assumption|].
        assert (Until now (rDeadline p) <= 0) by (apply Until_nonpos; lia). lia. }
      destruct (0 <? Buffer.Len (contents p)) eqn:L.
      * apply Len_pos_test in L. right; right; left.
        split; [exact L|]. split; [auto|].
        destruct (contents p); [congruence|reflexivity].
      * right; right; right.
        assert (He : contents p = []).
        { destruct (contents p) eqn:Ec; [reflexivity|].
          assert ((0 <? Buffer.Len (b :: l)) = true) by (apply Len_pos_test; discriminate).
          congruence. }
        split; [exact He|]. split; [|auto].
        destruct (closed p) eqn:Hc; [|reflexivity]. exfalso. auto.
Qed.

(** X1. A call of Read that returns hands back a prefix of the buffer, at
    most len(target) bytes, and leaves exactly the rest; closed flag and
    deadline stay. With a nil error the prefix is the first len(target)
    bytes of a non-empty buffer and waiters are woken; with an error (only
    io.EOF on a closed empty pipe, or ErrTimeout on a passed deadline) no
    byte is taken, the pipe is untouched and nobody is woken. *)
Theorem Read_returns_prefix now n p p' es data err :
  Read_cycle now n (ensureBuf p) = (p', es, Return (RetRead data err)) ->
  data ++ contents p' = contents p /\
  (length data <= n)%nat /\
  closed p' = closed p /\ rDeadline p' = rDeadline p /\
  (err = None ->
     data = firstn n (contents p) /\ contents p <> [] /\ In Broadcast es) /\
  (forall e, err = Some e ->
     data = [] /\ p' = ensureBuf p /\ es = [] /\
     ((e = EOF /\ closed p = true /\ contents p = []) \/
      (e = ErrTimeout /\ rDeadline p <> 0 /\ rDeadline p <= now))).
Proof.
  intros H.
  assert (Hc : contents (ensureBuf p) = contents p)
    by (unfold contents; rewrite ensureBuf_buf; reflexivity).
  destruct (Read_cycle_cases now n p)
    as [(Hcl & He & HR) | [(Hnd & Hz & Hle & HR) | [(Hne & Hfut & HR) | (_ & _ & _ & HR)]]];
    rewrite HR in H; try discriminate H; injection H as <- <- <- <-.
  - rewrite Hc, ensureBuf_closed, ensureBuf_rDeadline.
    repeat split; cbn; try lia; try discriminate; try assumption.
    injection H as <-. left. auto.
  - rewrite Hc, ensureBuf_closed, ensureBuf_rDeadline.
    repeat split; cbn; try lia; try discriminate; try assumption.
    injection H as <-. right. auto.
  - rewrite contents_set_buf. cbn [closed rDeadline set_buf].
    rewrite ensureBuf_closed, ensureBuf_rDeadline.
    split; [apply firstn_skipn|]. split; [rewrite length_take; lia|].
    split; [reflexivity|]. split; [reflexivity|].
    split; [|discriminate]. intros _. repeat split; [exact Hne|].
    apply in_or_app. right. left. reflexivity.
Qed.

(** X2. Whatever the instants and target sizes of a run of Read calls, the
    bytes collected followed by the bytes still buffered are the bytes that
    were buffered: nothing is lost, repeated or reordered. With no
    deadline, non-empty targets and enough room in total, the calls collect
    the whole buffer and leave it empty. *)
Theorem readMany_fifo (calls : list (Time * nat)) : forall p,
  (readMany calls p).1 ++ contents (readMany calls p).2 = contents p /\
  (rDeadline p = 0 ->
   Forall (fun c => (0 < c.2)%nat) calls ->
   (length (contents p) <= sum_list (snd <$> calls))%nat ->
   (readMany calls p).1 = contents p /\ contents (readMany calls p).2 = []).
Proof.
  induction calls as [|[now n] rest IH]; intros p.
  - cbn. split; [reflexivity|]. intros _ _ Hlen.
    destruct (contents p); [auto|cbn in Hlen; lia].
  - cbn [readMany].
    destruct (Read_cycle_cases now n p)
      as [(Hcl & He & HR) | [(Hnd & Hz & Hle & HR) | [(Hne & Hfut & HR)
          | (He & _ & _ & HR)]]]; rewrite HR.
    + cbn. split; [reflexivity|]. intros _ _ _. auto.
    + cbn. split; [reflexivity|]. intros Hz0. contradiction.
    + destruct (IH (set_buf (skipn n (contents p)) (ensureBuf p))) as [IH1 IH2].
      rewrite contents_set_buf in IH1, IH2.
      destruct (readMany rest (set_buf (skipn n (contents p)) (ensureBuf p)))
        as [more q] eqn:Eq.
      cbn [fst snd] in *. split.
      * rewrite <- app_assoc, IH1. apply firstn_skipn.
      * intros Hz Hall Hlen. inversion Hall as [|? ? Hn Hrest]; subst.
        cbn in Hn, Hlen.
        destruct IH2 as [E1 E2].
        -- cbn. rewrite ensureBuf_rDeadline. exact Hz.
        -- exact Hrest.
        -- rewrite length_drop. lia.
        -- split; [rewrite E1; apply firstn_skipn|exact E2].
    + cbn. split; [reflexivity|]. intros _ _ _. auto.
Qed.

Lemma readMany_drains (calls : list (Time * nat)) : forall p,
  rDeadline p = 0 ->
  Forall (fun c => (0 < c.2)%nat) calls ->
  (length (contents p) <= sum_list (snd <$> calls))%nat ->
  (readMany calls p).1 = contents p /\ contents (readMany calls p).2 = [].
Proof.
  induction calls as [|[now n] rest IH]; intros p Hz Hall Hlen.
  - cbn in *. destruct (contents p); [auto|cbn in Hlen; lia].
  - cbn [readMany].
    destruct (Read_cycle_cases now n p)
      as [(Hcl & He & HR) | [(Hnd & Hnz & _) | [(Hne & Hfut & HR)
          | (He & _ & _ & HR)]]]; [| contradiction | |]; rewrite HR.
    + cbn. auto.
    + inversion Hall as [|? ? Hn Hrest]; subst. cbn in Hn, Hlen.
      destruct (IH (set_buf (skipn n (contents p)) (ensureBuf p))) as [E1 E2].
      * cbn. rewrite ensureBuf_rDeadline. exact Hz.
      * exact Hrest.
      * rewrite contents_set_buf, length_drop. lia.
      * rewrite contents_set_buf in E1.
        destruct (readMany rest (set_buf (skipn n (contents p)) (ensureBuf p)))
          as [more q].
        cbn [fst snd] in *. split; [rewrite E1; apply firstn_skipn|exact E2].
    + cbn. auto.
Qed.

(** X3. Write then read: once a Write has gone through, Read calls with no
    deadline, non-empty targets and enough room in total collect what was
    buffered before followed by the whole input, and leave the pipe empty;
    on a new pipe that is exactly the input. *)
Theorem write_then_read (input : list byte) (calls : list (Time * nat)) p p1 es r :
  Write_cycle input (ensureBuf p) = (p1, es, Return (RetWrite r None)) ->
  rDeadline p = 0 ->
  Forall (fun c => (0 < c.2)%nat) calls ->
  (length (contents p) + length input <= sum_list (snd <$> calls))%nat ->
  r = Z.of_nat (length input) /\
  (readMany calls p1).1 = contents p ++ input /\
  contents (readMany calls p1).2 = [] /\
  (p = NewBufferedPipe -> (readMany calls p1).1 = input).
Proof.
  intros Hw Hz Hall Hlen.
  assert (Hp1 : r = Z.of_nat (length input) /\ contents p1 = contents p ++ input /\
                rDeadline p1 = rDeadline p).
  { revert Hw. unfold Write_cycle. rewrite ensureBuf_buf, ensureBuf_closed.
    destruct (closed p); [discriminate|].
    destruct (Buffer.Len (contents p) <=? BUF_SIZE_LIMIT); [|discriminate].
    cbn. intros [= <- _ <-]. rewrite contents_set_buf. cbn.
    rewrite ensureBuf_rDeadline. auto. }
  destruct Hp1 as (Hr & Hc1 & Hd1).
  destruct (readMany_drains calls p1) as [E1 E2]; [congruence|exact Hall| |].
  { rewrite Hc1, length_app. exact Hlen. }
  split; [exact Hr|]. split; [congruence|]. split; [exact E2|].
  intros ->. rewrite E1, Hc1. reflexivity.
Qed.

Section WithSink.

Context {W : Type}.
Variable sinkWrite : list byte -> W -> W * nat * option error.

(** ** WriteTo, one pass *)


(** X5. When a pass of WriteTo goes back to wait, the buffer is empty:
    either there was nothing to move (sink and count untouched), or the
    sink took every buffered byte in one Write call, the count grew by
    that many and waiters were woken. *)
Theorem WriteTo_waits_on_empty now w acc p p' es w' acc' :
  WriteTo_cycle sinkWrite now w acc p = ((p', es, CondWait), w', acc') ->
  contents p' = [] /\ closed p' = closed p /\
  ((contents p = [] /\ closed p = false /\ w' = w /\ acc' = acc) \/
   (contents p <> [] /\
    sinkWrite (contents p) w = (w', length (contents p), None) /\
    acc' = acc + Z.of_nat (length (contents p)) /\ In Broadcast es)).
Proof.
  unfold WriteTo_cycle, contents.
  destruct (buf p) as [b|] eqn:Hb; [|discriminate].
  change (default [] (Some b)) with b.
  destruct (closed p && (Buffer.Len b =? 0))%bool eqn:E; [discriminate|].
  destruct (deadlineCheck now p) as [e|od] eqn:D; [discriminate|].
  assert (Hp1 : forall q a, (if wtTimeout p =? 0 then (p, [])
                  else (set_rDeadline (Add now (wtTimeout p)) p,
                        [AfterFunc (wtTimeout p)])) = (q, a) ->
                buf q = Some b /\ closed q = closed p).
  { intros q a. destruct (wtTimeout p =? 0); intros [= <- _]; auto. }
  destruct (if wtTimeout p =? 0 then _ else _) as [p1 armed2] eqn:Ep1.
  destruct (Hp1 _ _ eq_refl) as [Hb1 Hc1].
  destruct (0 <? Buffer.Len b) eqn:L.
  - apply Len_pos_test in L. unfold Buffer_WriteTo.
    destruct (sinkWrite b w) as [[w1 m] se] eqn:Es.
    destruct (Nat.ltb_spec (length b) m) as [Hgt|Hle]; [discriminate|].
    destruct se as [e|]; [discriminate|].
    destruct (Nat.eqb_spec m (length b)) as [Hm|Hm]; [|discriminate].
    intros [= <- <- <- <-]. cbn. split; [reflexivity|]. split; [exact Hc1|].
    right. subst m. split; [exact L|]. split; [reflexivity|]. split; [reflexivity|].
    apply in_or_app. right. apply in_or_app. right. left. reflexivity.
  - intros [= <- <- <- <-]. rewrite Hb1. cbn.
    assert (He : b = []).
    { destruct b eqn:Eb; [reflexivity|].
      assert ((0 <? Buffer.Len (b0 :: l)) = true) by (apply Len_pos_test; discriminate).
      congruence. }
    split; [exact He|]. split; [exact Hc1|]. left.
    repeat split; auto.
    destruct (closed p) eqn:Hc; [|reflexivity].
    exfalso. assert ((closed p && (Buffer.Len b =? 0))%bool = true).
    { apply closed_drained_test. rewrite Hc. auto. }
    rewrite Hc in H. congruence.
Qed.

(** X6. With a WriteTo timeout set, every pass that gets past the two
    early returns moves the read deadline to "now plus the timeout" and
    arms one timer, for the timeout (none for the old deadline). A later
    pass that runs at or after that instant returns (0, ErrTimeout), also
    when data has arrived meanwhile and whatever the earlier passes wrote:
    the timeout is an idle timeout that restarts with every pass. *)
Theorem WriteTo_idle_timeout now w acc p p1 es x w1 acc1 :
  WriteTo_cycle sinkWrite now w acc p = ((p1, es, x), w1, acc1) ->
  wtTimeout p <> 0 -> is_Some (buf p) ->
  ~ (closed p = true /\ contents p = []) ->
  (rDeadline p = 0 \/ now < rDeadline p) ->
  rDeadline p1 = now + wtTimeout p /\ wtTimeout p1 = wtTimeout p /\
  In (AfterFunc (wtTimeout p)) es /\
  (forall d, In (AfterFunc d) es -> d = wtTimeout p) /\
  (forall now2 w2 acc2 q,
     rDeadline q = rDeadline p1 -> is_Some (buf q) ->
     ~ (closed q = true /\ contents q = []) ->
     now + wtTimeout p <> 0 -> now + wtTimeout p <= now2 ->
     WriteTo_cycle sinkWrite now2 w2 acc2 q =
       ((q, [], Return (RetWriteTo 0 (Some ErrTimeout))), w2, acc2)).
Proof.
  intros H Hwt [b Hb] Hnd Hfut.
  assert (Hc : contents p = b) by (apply contents_allocated, Hb).
  assert (Hfirst : rDeadline p1 = now + wtTimeout p /\ wtTimeout p1 = wtTimeout p /\
                   In (AfterFunc (wtTimeout p)) es /\
                   (forall d, In (AfterFunc d) es -> d = wtTimeout p)).
  { revert H. unfold WriteTo_cycle. rewrite Hb.
    destruct (closed p && (Buffer.Len b =? 0))%bool eqn:E.
    { apply closed_drained_test in E. rewrite Hc in Hnd. contradiction. }
    destruct (deadlineCheck now p) as [e|od] eqn:D.
    { apply deadlineCheck_timeout in D as (_ & Hz & Hle). lia. }
    destruct (Z.eqb_spec (wtTimeout p) 0) as [|_]; [contradiction|].
    assert (Hin : forall tl, In (AfterFunc (wtTimeout p))
                    (match od with Some _ => [] | None => [] end
                     ++ [AfterFunc (wtTimeout p)] ++ tl)).
    { intros tl. destruct od; left; reflexivity. }
    assert (Honly : forall tl d,
              (forall d', ~ In (AfterFunc d') tl) ->
              In (AfterFunc d)
                 (match od with Some _ => [] | None => [] end
                  ++ [AfterFunc (wtTimeout p)] ++ tl) -> d = wtTimeout p).
    { intros tl d Htl. destruct od; cbn; intros [[= <-]|Hd]; auto;
        exfalso; eapply Htl, Hd. }
    assert (Hbc : forall d', ~ In (AfterFunc d') [Broadcast]).
    { intros d' [Hd|[]]. discriminate Hd. }
    destruct (0 <? Buffer.Len b).
    - destruct (Buffer_WriteTo sinkWrite b w) as [[[[rest w'] written] [e|]]|].
      + intros [= <- <- _ _ _]. cbn. repeat split; auto.
        * apply (Hin [Broadcast]).
        * intros d. apply (Honly [Broadcast] d Hbc).
      + intros [= <- <- _ _ _]. cbn. repeat split; auto.
        * apply (Hin [Broadcast]).
        * intros d. apply (Honly [Broadcast] d Hbc).
      + intros [= <- <- _ _ _]. cbn. repeat split; auto.
        * generalize (Hin []). rewrite app_nil_r. auto.
        * intros d Hd. apply (Honly [] d); [intros d' []|].
          rewrite app_nil_r. exact Hd.
    - intros [= <- <- _ _ _]. cbn. repeat split; auto.
      + generalize (Hin []). rewrite app_nil_r. auto.
      + intros d Hd. apply (Honly [] d); [intros d' []|].
        rewrite app_nil_r. exact Hd. }
  destruct Hfirst as (Hd1 & Hw1 & Hin & Honly).
  split; [exact Hd1|]. split; [exact Hw1|]. split; [exact Hin|]. split; [exact Honly|].
  intros now2 w2 acc2 q Hq [bq Hbq] Hndq Hz Hle.
  unfold WriteTo_cycle. rewrite Hbq.
  destruct (closed q && (Buffer.Len bq =? 0))%bool eqn:E.
  { apply closed_drained_test in E. rewrite (contents_allocated _ _ Hbq) in Hndq.
    contradiction. }
  rewrite deadlineCheck_elapsed; [reflexivity| |]; rewrite Hq, Hd1; assumption.
Qed.

(** ** Goroutines *)

Abbreviation system := (@system W).

Lemma lock_free_lookup (ts : list (@thread W)) :
  lock_free ts = true <-> forall i t, ts !! i = Some t -> is_parking t = false.
Proof.
  unfold lock_free. induction ts as [|t ts IH]; cbn.
  - split; [intros _ i t H; discriminate|reflexivity].
  - rewrite andb_true_iff, IH, negb_true_iff. split.
    + intros [Ht Hts] [|i] t'; cbn; [intros [= <-]; exact Ht|apply Hts].
    + intros H. split; [apply (H 0%nat); reflexivity|].
      intros i t' Hi. apply (H (S i)). exact Hi.
Qed.

Lemma is_parking_wake (t : @thread W) : is_parking (wake t) = is_parking t.
Proof. destruct t; reflexivity. Qed.

(** A stretch that ends in a return leaves the mutex free. *)
Lemma lock_free_after_return (s s' : system) i r :
  lock_free (threads s) = true ->
  step sinkWrite (Run i) s = Some s' ->
  threads s' !! i = Some (Returned r) ->
  lock_free (threads s') = true.
Proof.
  intros Hl Hs Hi. apply lock_free_lookup. intros j t' Hj.
  destruct (decide (j = i)) as [->|Hne].
  { rewrite Hi in Hj. injection Hj as <-. reflexivity. }
  assert (Ht : exists t, threads s !! j = Some t).
  { apply lookup_lt_is_Some. rewrite <- (step_length sinkWrite _ s s' Hs).
    eapply lookup_lt_Some, Hj. }
  destruct Ht as [t Ht].
  pose proof (proj1 (lock_free_lookup _) Hl j t Ht) as Hp.
  destruct (step_thread sinkWrite _ s s' j t Hs Ht)
    as [(_ & _ & [H|H]) | [([= E] & _) | ([=] & _)]]; [..|congruence].
  - rewrite H in Hj. injection Hj as <-. exact Hp.
  - rewrite H in Hj. injection Hj as <-. rewrite is_parking_wake. exact Hp.
Qed.

Lemma tick_step (s : system) dt :
  0 <= dt ->
  step sinkWrite (Tick dt) s =
    Some (mkSystem (pipe s) (clock s + dt) (timers s) (threads s)).
Proof. intros H. cbn. apply Z.leb_le in H. rewrite H. reflexivity. Qed.

(** X7. SetReadDeadline with an instant already passed releases a reader
    that was waiting: the call stores the deadline and wakes the reader,
    and whenever the reader runs next, however much later, its Read
    returns ErrTimeout with no data taken, provided the pipe is not closed
    and empty. *)
Theorem past_deadline_releases_reader (s : system) i j n t b dt :
  threads s !! j = Some (Entering (CallSetReadDeadline t)) ->
  threads s !! i = Some (Waiting (CallRead n)) ->
  lock_free (threads s) = true ->
  buf (pipe s) = Some b -> ~ (closed (pipe s) = true /\ b = []) ->
  t <> 0 -> t <= clock s -> 0 <= dt ->
  exists s',
    exec sinkWrite [Run j; Tick dt; Run i] s = Some s' /\
    threads s' !! j = Some (Returned RetVoid) /\
    threads s' !! i = Some (Returned (RetRead [] (Some ErrTimeout))) /\
    pipe s' = set_rDeadline t (pipe s).
Proof.
  intros Hj Hi Hl Hb Hnd Hz Hle Hdt.
  assert (Hij : i <> j) by (intros ->; rewrite Hj in Hi; discriminate).
  assert (Hbody : body sinkWrite (clock s) (CallSetReadDeadline t)
                    (enter (@CallSetReadDeadline W t) (pipe s)) =
            ((set_rDeadline t (pipe s), [Broadcast], Return RetVoid),
             CallSetReadDeadline t)) by reflexivity.
  destruct (run_entering sinkWrite s j _ _ _ _ _ Hj Hl Hbody)
    as (s1 & Hs1 & Htj & Hp1 & Hck1 & _).
  assert (Hl1 : lock_free (threads s1) = true)
    by (eapply lock_free_after_return; eassumption).
  assert (Hi1 : threads s1 !! i = Some (Woken (CallRead n))).
  { pose proof Hs1 as Hs1'. cbn in Hs1'. rewrite Hl, Hj in Hs1'. injection Hs1' as <-.
    rewrite (run_thread_eq _ _ _ _ _ _ _ _ _ Hbody). cbn.
    rewrite list_lookup_insert_ne by congruence.
    rewrite list_lookup_fmap, Hi. reflexivity. }
  set (s2 := mkSystem (pipe s1) (clock s1 + dt) (timers s1) (threads s1)).
  assert (Hb2 : buf (pipe s2) = Some b) by (cbn; rewrite Hp1; exact Hb).
  assert (Hbody2 : body sinkWrite (clock s2) (CallRead n) (pipe s2) =
            ((pipe s2, [], Return (RetRead [] (Some ErrTimeout))), CallRead n)).
  { cbn [body]. rewrite (Read_cycle_elapsed _ _ _ b); try assumption.
    - reflexivity.
    - cbn. rewrite Hp1. exact Hnd.
    - cbn. rewrite Hp1. exact Hz.
    - cbn. rewrite Hp1, Hck1. cbn. lia. }
  destruct (run_woken sinkWrite s2 i _ _ _ _ _ Hi1 Hl1 Hbody2)
    as (s3 & Hs3 & Hti & Hp3 & _).
  exists s3. split.
  { cbn [exec]. rewrite Hs1, (tick_step s1 dt Hdt). fold s2. rewrite Hs3. reflexivity. }
  split.
  { destruct (step_thread sinkWrite _ s2 s3 j _ Hs3 Htj)
      as [(_ & _ & [H|H]) | [([= E] & _) | ([=] & _)]]; [exact H|exact H|congruence]. }
  split; [exact Hti|]. rewrite Hp3. exact Hp1.
Qed.

(** X8. Backpressure is lifted by a Read: when a Read takes data it wakes
    the writer that was waiting, and if what is left in the buffer is
    within BUF_SIZE_LIMIT the writer's next stretch appends its whole input
    behind the bytes that are left and returns len(input), nil. *)
Theorem read_lifts_backpressure (s : system) i k n input b :
  threads s !! i = Some (Entering (CallRead n)) ->
  threads s !! k = Some (Waiting (CallWrite input)) ->
  lock_free (threads s) = true ->
  buf (pipe s) = Some b -> b <> [] -> closed (pipe s) = false ->
  (rDeadline (pipe s) = 0 \/ clock s < rDeadline (pipe s)) ->
  Buffer.Len (skipn n b) <= BUF_SIZE_LIMIT ->
  exists s',
    exec sinkWrite [Run i; Run k] s = Some s' /\
    threads s' !! i = Some (Returned (RetRead (firstn n b) None)) /\
    threads s' !! k = Some (Returned (RetWrite (Z.of_nat (length input)) None)) /\
    contents (pipe s') = skipn n b ++ input.
Proof.
  intros Hi Hk Hl Hb Hne Hc Hfut Hroom.
  assert (Hik : k <> i) by (intros ->; rewrite Hi in Hk; discriminate).
  pose proof (contents_allocated _ _ Hb) as Hcb.
  pose proof (ensureBuf_allocated _ _ Hb) as He.
  destruct (Read_cycle_cases (clock s) n (pipe s))
    as [(Hcl & _) | [(_ & Hz & Hle & _) | [(_ & _ & HR) | (Hempty & _)]]];
    [congruence | lia | | congruence].
  rewrite He, Hcb in HR.
  assert (Hbody : body sinkWrite (clock s) (CallRead n)
                    (enter (@CallRead W n) (pipe s)) =
            ((set_buf (skipn n b) (pipe s),
              (if IsZero (rDeadline (pipe s)) then []
               else [AfterFunc (Until (clock s) (rDeadline (pipe s)))]) ++ [Broadcast],
              Return (RetRead (firstn n b) None)), CallRead n)).
  { cbn [body enter]. rewrite He, HR. reflexivity. }
  destruct (run_entering sinkWrite s i _ _ _ _ _ Hi Hl Hbody)
    as (s1 & Hs1 & Hti & Hp1 & _).
  assert (Hl1 : lock_free (threads s1) = true)
    by (eapply lock_free_after_return; eassumption).
  assert (Hk1 : threads s1 !! k = Some (Woken (CallWrite input))).
  { pose proof Hs1 as Hs1'. cbn in Hs1'. rewrite Hl, Hi in Hs1'. injection Hs1' as <-.
    rewrite (run_thread_eq _ _ _ _ _ _ _ _ _ Hbody). cbn [threads].
    rewrite list_lookup_insert_ne by congruence.
    assert (Hw : forall tm0 es0,
              (apply_effects (clock s) (es0 ++ [Broadcast]) (tm0, threads s)).2 !! k
              = Some (Woken (CallWrite input))).
    { intros tm0 es0. unfold apply_effects. rewrite fold_left_app. cbn.
      destruct (apply_effects_threads (clock s) es0 tm0 (threads s)) as [_ Hj].
      unfold apply_effects in Hj.
      rewrite list_lookup_fmap.
      destruct (Hj k) as [-> | ->]; rewrite Hk; reflexivity. }
    apply Hw. }
  assert (Hb1 : buf (pipe s1) = Some (skipn n b)) by (rewrite Hp1; reflexivity).
  assert (Hc1 : closed (pipe s1) = false) by (rewrite Hp1; exact Hc).
  assert (Hs2 : exists s2, step sinkWrite (Run k) s1 = Some s2).
  { cbn. rewrite Hl1, Hk1. eauto. }
  destruct Hs2 as [s2 Hs2].
  destruct (writer_released sinkWrite s1 s2 k input _ Hk1 Hs2 Hb1) as [_ Hgo].
  destruct (Hgo Hc1 Hroom) as [Htk Hp2].
  exists s2. split; [cbn [exec]; rewrite Hs1, Hs2; reflexivity|].
  split.
  { destruct (step_thread sinkWrite _ s1 s2 i _ Hs2 Hti)
      as [(_ & _ & [H|H]) | [([= E] & _) | ([=] & _)]]; [exact H|exact H|congruence]. }
  split; [exact Htk|]. rewrite Hp2. reflexivity.
Qed.

(** ** Along any schedule *)





(** ** No panic *)





End WithSink.

(** ** At concrete pipes *)

Lemma Read_returns_prefix_witness :
  [Byte.x01; Byte.x02] ++ contents (mkPipe (Some [Byte.x03]) false 0 0)
  = contents (mkPipe (Some [Byte.x01; Byte.x02; Byte.x03]) false 0 0).
Proof.
  exact (proj1 (Read_returns_prefix 0 2
                  (mkPipe (Some [Byte.x01; Byte.x02; Byte.x03]) false 0 0)
                  (mkPipe (Some [Byte.x03]) false 0 0) [Broadcast]
                  [Byte.x01; Byte.x02] None eq_refl)).
Defined.

Lemma readMany_fifo_witness :
  (readMany [(0, 2%nat); (7, 5%nat)]
     (mkPipe (Some [Byte.x01; Byte.x02; Byte.x03]) false 0 0)).1
  = [Byte.x01; Byte.x02; Byte.x03].
Proof.
  refine (proj1 (proj2 (readMany_fifo [(0, 2%nat); (7, 5%nat)]
                          (mkPipe (Some [Byte.x01; Byte.x02; Byte.x03]) false 0 0))
                   eq_refl _ _)).
  - repeat constructor.
  - cbn. lia.
Defined.

Lemma write_then_read_witness :
  (readMany [(0, 1%nat); (3, 1%nat)] (mkPipe (Some [Byte.x05; Byte.x06]) false 0 0)).1
  = [Byte.x05; Byte.x06].
Proof.
  refine (proj2 (proj2 (proj2
            (write_then_read [Byte.x05; Byte.x06] [(0, 1%nat); (3, 1%nat)]
               NewBufferedPipe (mkPipe (Some [Byte.x05; Byte.x06]) false 0 0)
               [Broadcast] 2 eq_refl eq_refl _ _))) eq_refl).
  - repeat constructor.
  - cbn. lia.
Defined.


Lemma WriteTo_waits_on_empty_witness :
  contents (mkPipe (Some []) false 0 0) = [] /\
  Demo.keepAll [Byte.x01; Byte.x02] [] = ([Byte.x01; Byte.x02], 2%nat, None).
Proof.
  destruct (WriteTo_waits_on_empty Demo.keepAll 0 [] 5
              (mkPipe (Some [Byte.x01; Byte.x02]) false 0 0)
              (mkPipe (Some []) false 0 0) [Broadcast]
              [Byte.x01; Byte.x02] 7 eq_refl) as (H1 & _ & [(H & _)|(_ & H2 & _)]).
  - discriminate H.
  - split; [exact H1 | exact H2].
Defined.

Lemma WriteTo_idle_timeout_witness :
  rDeadline (mkPipe (Some []) false 17 7) = 10 + 7 /\
  WriteTo_cycle Demo.keepAll 20 [Byte.x01] 1 (mkPipe (Some [Byte.x09]) false 17 7) =
    ((mkPipe (Some [Byte.x09]) false 17 7, [], Return (RetWriteTo 0 (Some ErrTimeout))),
     [Byte.x01], 1).
Proof.
  destruct (WriteTo_idle_timeout Demo.keepAll 10 [] 0
              (mkPipe (Some [Byte.x01]) false 0 7)
              (mkPipe (Some []) false 17 7) [AfterFunc 7; Broadcast] CondWait
              [Byte.x01] 1 eq_refl) as (H1 & _ & _ & _ & H5).
  - discriminate.
  - eexists. reflexivity.
  - intros [H _]. discriminate H.
  - left. reflexivity.
  - split; [exact H1|].
    apply (H5 20 [Byte.x01] 1 (mkPipe (Some [Byte.x09]) false 17 7)).
    + reflexivity.
    + eexists. reflexivity.
    + intros [H _]. discriminate H.
    + cbn. lia.
    + cbn. lia.
Defined.

Lemma past_deadline_releases_reader_witness :
  exists s',
    exec Demo.keepAll [Run 1; Tick 3; Run 0] Demo.waitingReader = Some s' /\
    threads s' !! 0%nat = Some (Returned (RetRead [] (Some ErrTimeout))).
Proof.
  destruct (past_deadline_releases_reader Demo.keepAll Demo.waitingReader 0 1 4 5
              [Byte.x01] 3 eq_refl eq_refl eq_refl eq_refl)
    as (s' & H1 & _ & H3 & _).
  - intros [H _]. discriminate H.
  - lia.
  - cbn. lia.
  - lia.
  - exists s'. split; [exact H1 | exact H3].
Defined.

Lemma read_lifts_backpressure_witness :
  exists s',
    exec Demo.keepAll [Run 0; Run 1] Demo.readerAndWriter = Some s' /\
    contents (pipe s') = [Byte.x02; Byte.x09].
Proof.
  destruct (read_lifts_backpressure Demo.keepAll Demo.readerAndWriter 0 1 1 [Byte.x09]
              [Byte.x01; Byte.x02] eq_refl eq_refl eq_refl eq_refl)
    as (s' & H1 & _ & _ & H4).
  - discriminate.
  - reflexivity.
  - left. reflexivity.
  - vm_compute. discriminate.
  - exists s'. split; [exact H1 | exact H4].
Defined.



End PipeMore.

(** * More on the handshake code *)

Module HandshakeMore.

Import Client HandshakeProps.

(** ** Bytes and 16-bit lengths *)

Lemma int_of_byte_of_int (x : Z) : int_of_byte (byte_of_int x) = x mod 256.
Proof.
  unfold int_of_byte, byte_of_int.
  assert (Hr : 0 <= x mod 256 < 256) by (apply Z.mod_pos_bound; lia).
  set (a := ascii_of_N (Z.to_N (x mod 256))).
  assert (Hb : Byte.to_N (byte_of_ascii a) = N_of_ascii a).
  { apply Byte.to_of_N. symmetry. apply byte_of_ascii_via_N. }
  rewrite Hb. unfold a. rewrite N_ascii_embedding by lia. lia.
Qed.

Lemma lor_shiftl_byte (a b : Z) :
  0 <= a < 256 -> 0 <= b -> Z.lor a (Z.shiftl b 8) = a + 256 * b.
Proof.
  intros Ha Hb.
  assert (Hland : Z.land a (Z.shiftl b 8) = 0).
  { apply Z.bits_inj'. intros n Hn. rewrite Z.land_spec, Z.bits_0.
    destruct (Z.lt_ge_cases n 8) as [Hlt|Hge].
    - rewrite Z.shiftl_spec_low by assumption. apply andb_false_r.
    - destruct (Z.eq_dec a 0) as [->|Hne]; [rewrite Z.bits_0; reflexivity|].
      rewrite (Z.bits_above_log2 a n); [reflexivity|lia|].
      assert (Z.log2 a < 8) by (apply Z.log2_lt_pow2; lia). lia. }
  rewrite <- Z.lxor_lor, <- Z.add_nocarry_lxor by assumption.
  rewrite Z.shiftl_mul_pow2 by lia. lia.
Qed.

Lemma Uint16_PutUint16 (v : Z) : 0 <= v < 2 ^ 16 -> Uint16 (PutUint16 v) = Some v.
Proof.
  intros Hv. unfold Uint16, PutUint16. f_equal.
  rewrite !int_of_byte_of_int, Z.shiftr_div_pow2 by lia.
  change (2 ^ 8) with 256. change (2 ^ 16) with 65536 in Hv.
  assert (0 <= v / 256 < 256) by (split; [apply Z.div_pos|apply Z.div_lt_upper_bound]; lia).
  rewrite (Z.mod_small (v / 256)) by lia.
  rewrite lor_shiftl_byte; [|apply Z.mod_pos_bound; lia|lia].
  pose proof (Z.div_mod v 256). lia.
Qed.

Lemma copyInto_exact (dst : list byte) (lo hi : nat) (src : list byte) :
  (lo <= hi <= length dst)%nat -> length src = (hi - lo)%nat ->
  copyInto dst lo hi src = firstn lo dst ++ src ++ skipn hi dst.
Proof.
  intros Hb Hs. unfold copyInto, copy.
  rewrite length_take, length_drop.
  replace ((hi - lo) `min` (length dst - lo))%nat with (length src) by lia.
  rewrite firstn_all. rewrite skipn_all2 by (rewrite length_take, length_drop; lia).
  rewrite app_nil_r. reflexivity.
Qed.

Lemma generateSNI_layout (serverName : string) :
  generateSNI serverName =
    PutUint16 (uint16 (Z.of_nat (String.length serverName) + 3)) ++ [Byte.x00] ++
    PutUint16 (uint16 (Z.of_nat (String.length serverName))) ++
    list_byte_of_string serverName.
Proof.
  assert (Hlen : length (list_byte_of_string serverName) = String.length serverName).
  { unfold list_byte_of_string. rewrite length_map.
    induction serverName; cbn; congruence. }
  unfold generateSNI. rewrite Hlen.
  set (name := list_byte_of_string serverName) in *.
  set (n := String.length serverName) in *.
  unfold PutUint16.
  set (a0 := byte_of_int (Z.shiftr (uint16 (Z.of_nat n + 3)) 8)).
  set (a1 := byte_of_int (uint16 (Z.of_nat n + 3))).
  set (c0 := byte_of_int (Z.shiftr (uint16 (Z.of_nat n)) 8)).
  set (c1 := byte_of_int (uint16 (Z.of_nat n))).
  change (2 + 1 + 2 + n)%nat with (S (S (S (S (S n))))).
  unfold zeros. cbn [repeat].
  rewrite (copyInto_exact _ 0 2) by (cbn [length]; rewrite ?repeat_length; lia).
  cbn [firstn skipn app].
  rewrite (copyInto_exact _ 2 3) by (cbn [length]; rewrite ?repeat_length; lia).
  cbn [firstn skipn app].
  rewrite (copyInto_exact _ 3 5) by (cbn [length]; rewrite ?repeat_length; lia).
  cbn [firstn skipn app]. rewrite ?drop_0.
  match goal with
  | |- context [copyInto ?X 5 (length ?X) _] =>
    replace (length X) with (S (S (S (S (S n)))))
      by (cbn [length]; rewrite ?repeat_length; lia)
  end.
  rewrite (copyInto_exact _ 5 (S (S (S (S (S n))))))
    by (cbn [length]; rewrite ?repeat_length; lia).
  cbn [firstn skipn app].
  rewrite skipn_all2 by (rewrite repeat_length; lia).
  rewrite app_nil_r. reflexivity.
Qed.

(** X11. generateSNI lays out a server-name list of one host_name entry:
    two bytes for len(name)+3, a zero type byte, two bytes for len(name),
    then the name; 5+len(name) bytes in all, the two lengths taken modulo
    65536. For a name of at most 65532 bytes the big-endian fields read
    back as len(name)+3 (the number of bytes after the first field) and
    len(name), and the tail is the name. *)
Theorem generateSNI_round_trip (serverName : string) :
  let ret := generateSNI serverName in
  let n := String.length serverName in
  length ret = (5 + n)%nat /\
  ret = PutUint16 (uint16 (Z.of_nat n + 3)) ++ [Byte.x00] ++
        PutUint16 (uint16 (Z.of_nat n)) ++ list_byte_of_string serverName /\
  (Z.of_nat n <= 65532 ->
   Uint16 ret = Some (Z.of_nat (length ret) - 2) /\
   ret !! 2%nat = Some Byte.x00 /\
   Uint16 (skipn 3 ret) = Some (Z.of_nat n) /\
   string_of_list_byte (skipn 5 ret) = serverName).
Proof.
  intros ret n. subst ret n.
  assert (Hlen : length (list_byte_of_string serverName) = String.length serverName).
  { unfold list_byte_of_string. rewrite length_map.
    induction serverName; cbn; congruence. }
  rewrite generateSNI_layout.
  assert (Htot : length (PutUint16 (uint16 (Z.of_nat (String.length serverName) + 3)) ++
                   [Byte.x00] ++ PutUint16 (uint16 (Z.of_nat (String.length serverName))) ++
                   list_byte_of_string serverName) = (5 + String.length serverName)%nat).
  { cbn. rewrite Hlen. reflexivity. }
  split; [exact Htot|]. split; [reflexivity|].
  intros Hn. rewrite Htot.
  assert (H3 : uint16 (Z.of_nat (String.length serverName) + 3)
               = Z.of_nat (String.length serverName) + 3).
  { unfold uint16. apply Z.mod_small. change (2 ^ 16) with 65536. lia. }
  assert (H0 : uint16 (Z.of_nat (String.length serverName))
               = Z.of_nat (String.length serverName)).
  { unfold uint16. apply Z.mod_small. change (2 ^ 16) with 65536. lia. }
  rewrite H3, H0.
  pose proof (Uint16_PutUint16 (Z.of_nat (String.length serverName) + 3)) as E3.
  pose proof (Uint16_PutUint16 (Z.of_nat (String.length serverName))) as E0.
  change (2 ^ 16) with 65536 in E3, E0.
  split.
  { replace (Z.of_nat (5 + String.length serverName) - 2)
      with (Z.of_nat (String.length serverName) + 3) by lia.
    rewrite <- E3 by lia. reflexivity. }
  split; [reflexivity|]. split.
  { rewrite <- E0 by lia. reflexivity. }
  cbn [PutUint16 app skipn]. apply string_of_list_byte_of_string.
Qed.

(** ** Overwriting the key share *)

Lemma overwriteKeyShare_length exts ei ki data exts' :
  overwriteKeyShare exts ei ki data = inr exts' -> length exts' = length exts.
Proof.
  unfold overwriteKeyShare.
  destruct (exts !! ei) as [[ks|id]|]; [|discriminate..].
  destruct (ks !! ki); [|discriminate].
  intros [= <-]. apply length_insert.
Qed.

(** X12. When line 119 does not panic it changes one thing: the Data of
    the key share it points at, by copy, so over at most the length that
    Data had. The extension list keeps its length and every other
    extension, the key-share list keeps its length and every other entry,
    the entry keeps its group and the length of its Data; with data of
    that same length the Data becomes the data. It panics exactly when
    there is no extension at the index, or one that is no key-share
    extension, or no key share at the key-share index. *)
Theorem overwriteKeyShare_one_entry exts ei ki data :
  match overwriteKeyShare exts ei ki data with
  | inr exts' =>
    exists ks k,
      exts !! ei = Some (KeyShareExtension ks) /\ ks !! ki = Some k /\
      length exts' = length exts /\
      (forall i, i <> ei -> exts' !! i = exts !! i) /\
      exts' !! ei =
        Some (KeyShareExtension (<[ki := mkKeyShare (Group k) (copy (Data k) data)]> ks)) /\
      length (<[ki := mkKeyShare (Group k) (copy (Data k) data)]> ks) = length ks /\
      length (copy (Data k) data) = length (Data k) /\
      (length data = length (Data k) -> copy (Data k) data = data)
  | inl p =>
    (exts !! ei = None /\ p = IndexOutOfRange ei (length exts)) \/
    (exists id, exts !! ei = Some (OtherExtension id) /\ p = TypeAssertion ei) \/
    (exists ks, exts !! ei = Some (KeyShareExtension ks) /\ ks !! ki = None /\
                p = IndexOutOfRange ki (length ks))
  end.
Proof.
  unfold overwriteKeyShare.
  destruct (exts !! ei) as [[ks|id]|] eqn:He.
  - destruct (ks !! ki) as [k|] eqn:Hk.
    + exists ks, k. split; [reflexivity|]. split; [exact Hk|].
      split; [apply length_insert|].
      split; [intros i Hi; apply list_lookup_insert_ne; congruence|].
      split; [apply list_lookup_insert_eq; eapply lookup_lt_Some, He|].
      split; [apply length_insert|]. split; [apply copy_length|].
      intros Hl. unfold copy. rewrite <- Hl, firstn_all, skipn_all2 by lia.
      apply app_nil_r.
    + right; right. eauto.
  - right; left. eauto.
  - left. auto.
Qed.

Lemma skipn_zeros (k n : nat) : skipn k (zeros n) = zeros (n - k).
Proof.
  unfold zeros. revert k. induction n as [|n IH]; intros [|k]; cbn; auto.
Qed.

Lemma rangeExtensions_app (l1 l2 : list TLSExtension) : forall i e k,
  rangeExtensions i (l1 ++ l2) e k =
    rangeExtensions (i + length l1) l2
      (rangeExtensions i l1 e k).1 (rangeExtensions i l1 e k).2.
Proof.
  induction l1 as [|x l1 IH]; intros i e k; cbn.
  - rewrite Nat.add_0_r. reflexivity.
  - destruct x; rewrite IH; f_equal; lia.
Qed.

(** X13. Found and overwritten: when the last key-share extension of the
    list has an X25519 entry, buildClientHello's search and overwrite put
    the data into the Data of the last such entry of that extension and
    leave everything else as it was; with Data and data of equal length
    (32 bytes in a real hello) the entry then holds exactly the data. *)
Theorem key_share_is_overwritten exts m ks j k data :
  exts !! m = Some (KeyShareExtension ks) ->
  (forall m' x, (m < m')%nat -> exts !! m' = Some x -> isKeyShare x = false) ->
  ks !! j = Some k -> Group k = X25519 ->
  (forall j' k', (j < j')%nat -> ks !! j' = Some k' -> Group k' <> X25519) ->
  overwriteKeyShare exts (findKeyShare exts).1 (findKeyShare exts).2 data =
    inr (<[m := KeyShareExtension
                  (<[j := mkKeyShare X25519 (copy (Data k) data)]> ks)]> exts) /\
  (length data = length (Data k) -> copy (Data k) data = data).
Proof.
  intros Hm Hlast Hj Hk Hjl. unfold findKeyShare.
  destruct (rangeExtensions_last exts 0 0 0 m ks Hm Hlast) as [k0 ->]. cbn [fst snd].
  rewrite (rangeKeyShares_last ks 0 k0 j k Hj Hk Hjl). cbn [Nat.add].
  unfold overwriteKeyShare. rewrite Hm, Hj, Hk. split; [reflexivity|].
  intros Hl. unfold copy. rewrite <- Hl, firstn_all, skipn_all2 by lia.
  apply app_nil_r.
Qed.

(** No X25519 entry in any key-share extension of the list. *)
Lemma rangeExtensions_no_x25519 (exts : list TLSExtension) : forall i e k,
  Forall (fun x => match x with
                   | KeyShareExtension l => Forall (fun y => Group y <> X25519) l
                   | OtherExtension _ => True
                   end) exts ->
  (rangeExtensions i exts e k).2 = k.
Proof.
  induction exts as [|x exts IH]; intros i e k Hall; [reflexivity|].
  inversion Hall as [|? ? Hx Hxs]; subst. destruct x as [l|id]; cbn.
  - rewrite IH by assumption. apply rangeKeyShares_none, Hx.
  - apply IH, Hxs.
Qed.

(** X14. The key-share index is not reset from one extension to the next.
    When a key-share extension without X25519 entry comes after the one
    that has it, the search ends with the index of the later extension
    and the key-share index found in the earlier one: line 119 then
    overwrites an entry of another group in the later extension, or panics
    when that extension has no entry at that index; the X25519 entry is
    not touched. *)
Theorem key_share_index_is_stale pre ks post m ks' j k data :
  Forall (fun x => isKeyShare x = false) pre ->
  ks !! j = Some k -> Group k = X25519 ->
  (forall j' k', (j < j')%nat -> ks !! j' = Some k' -> Group k' <> X25519) ->
  Forall (fun x => match x with
                   | KeyShareExtension l => Forall (fun y => Group y <> X25519) l
                   | OtherExtension _ => True
                   end) post ->
  post !! m = Some (KeyShareExtension ks') ->
  (forall m' x, (m < m')%nat -> post !! m' = Some x -> isKeyShare x = false) ->
  let exts := pre ++ KeyShareExtension ks :: post in
  let idx := (length pre + 1 + m)%nat in
  findKeyShare exts = (idx, j) /\
  exts !! length pre = Some (KeyShareExtension ks) /\
  match ks' !! j with
  | None =>
    overwriteKeyShare exts idx j data = inl (IndexOutOfRange j (length ks'))
  | Some k' =>
    Group k' <> X25519 /\
    exists exts',
      overwriteKeyShare exts idx j data = inr exts' /\
      exts' !! idx =
        Some (KeyShareExtension (<[j := mkKeyShare (Group k') (copy (Data k') data)]> ks')) /\
      exts' !! length pre = Some (KeyShareExtension ks)
  end.
Proof.
  intros Hpre Hj Hk Hjl Hpost Hm Hlast exts idx. subst exts idx.
  assert (Hat : (pre ++ KeyShareExtension ks :: post) !! (length pre + 1 + m)%nat
                = Some (KeyShareExtension ks')).
  { rewrite lookup_app_r by lia.
    replace (length pre + 1 + m - length pre)%nat with (S m) by lia. exact Hm. }
  assert (Hhere : (pre ++ KeyShareExtension ks :: post) !! length pre
                  = Some (KeyShareExtension ks)).
  { rewrite lookup_app_r by lia. rewrite Nat.sub_diag. reflexivity. }
  assert (Hfind : findKeyShare (pre ++ KeyShareExtension ks :: post)
                  = ((length pre + 1 + m)%nat, j)).
  { unfold findKeyShare. rewrite rangeExtensions_app.
    rewrite (rangeExtensions_none pre 0 0 0 Hpre). cbn [fst snd Nat.add rangeExtensions].
    rewrite (rangeKeyShares_last ks 0 0 j k Hj Hk Hjl). cbn [Nat.add].
    destruct (rangeExtensions_last post (S (length pre)) (length pre) j m ks' Hm Hlast)
      as [k0 Hr].
    pose proof (rangeExtensions_no_x25519 post (S (length pre)) (length pre) j Hpost) as H2.
    rewrite Hr in H2 |- *. cbn in H2. rewrite H2. f_equal. lia. }
  split; [exact Hfind|]. split; [exact Hhere|].
  assert (Hks' : Forall (fun y => Group y <> X25519) ks').
  { rewrite Forall_lookup in Hpost. apply (Hpost m _ Hm). }
  unfold overwriteKeyShare. rewrite Hat.
  destruct (ks' !! j) as [k'|] eqn:Hj'; [|reflexivity].
  split; [rewrite Forall_lookup in Hks'; apply (Hks' j k' Hj')|].
  eexists. split; [reflexivity|]. split.
  - apply list_lookup_insert_eq. eapply lookup_lt_Some, Hat.
  - rewrite list_lookup_insert_ne by lia. exact Hhere.
Qed.

Section WithWorld.

Context {World : Type} `{Ext : Externals World}.

Abbreviation state := (@state World).

(** ** randInt and randItem *)

(** X15. randInt(n) for n > 0 returns a number in [0,n) and does not
    panic: the draw of crypto/rand when that succeeds, otherwise the draw
    of math/rand made after it. For n <= 0 it panics (in crypto/rand)
    before drawing anything. randItem returns an element of a non-empty
    list and panics in the same way on an empty one. *)
Theorem randInt_draws (n : Z) (st : state) :
  (n <= 0 -> randInt n st = Panic (BadRandArgument n)) /\
  (0 < n ->
   exists v st',
     randInt n st = Ok v st' /\ 0 <= v < n /\ log st' = log st /\
     (forall size w, cryptoRand_Int n (world st) = (inl size, w) ->
        v = size /\ world st' = w) /\
     (forall e w, cryptoRand_Int n (world st) = (inr e, w) ->
        v = (rand_Intn n w).1 /\ world st' = (rand_Intn n w).2)) /\
  (randItem [] st = Panic (BadRandArgument 0)) /\
  (forall l, l <> [] -> exists x st', randItem l st = Ok x st' /\ In x l).
Proof.
  split.
  { intros Hn. unfold randInt. apply Z.leb_le in Hn. rewrite Hn. reflexivity. }
  split.
  { intros Hn. unfold randInt. destruct (Z.leb_spec n 0); [lia|].
    unfold bind, liftW.
    destruct (cryptoRand_Int n (world st)) as [[v|e] w] eqn:E; cbn.
    - exists v, (mkState w (log st)). split; [reflexivity|].
      split; [eapply cryptoRand_Int_range; eassumption|]. split; [reflexivity|].
      split; [intros size w0 [= <- <-]; auto|intros e w0 [=]].
    - pose proof (rand_Intn_range n w Hn) as Hr.
      destruct (rand_Intn n w) as [v w'] eqn:E'. cbn in Hr.
      exists v, (mkState w' (log st)). split; [reflexivity|].
      split; [lia|]. split; [reflexivity|].
      split; [intros size w0 [=]|intros e0 w0 [= <- <-]; rewrite E'; auto]. }
  split; [reflexivity|].
  intros l Hl. destruct (randItem_spec l st Hl) as (x & st' & H & Hin & _). eauto.
Qed.

(** ** buildClientHello *)

Lemma Write_eq (b : list byte) (st : state) :
  Write b st =
    Ok (connWrite b (world st)).1
       (mkState (connWrite b (world st)).2 (log st ++ [EvWrite b])).
Proof.
  unfold Write, bind, emit, liftW. cbn [world log].
  destruct (connWrite b (world st)). reflexivity.
Qed.

(** X16. What buildClientHello hands to utls and returns. After a first
    build and SetClientRandom without error, and unless line 119 panics,
    the hello built a second time has a session id of exactly 32 bytes
    (the given one, cut or padded with zeros), the extension list with
    the one key share overwritten, and the client random as
    SetClientRandom left it; the function returns the raw hello of that
    second build with a nil error, or no bytes with the build's error. *)
Theorem buildClientHello_fills_hello b fields (st : state) u1 w1 u2 exts :
  BuildHandshakeState (UClient (serverName fields) (helloIDOf b)) (world st)
    = (u1, None, w1) ->
  SetClientRandom (random fields) u1 = (u2, None) ->
  overwriteKeyShare (Extensions u2) (findKeyShare (Extensions u2)).1
    (findKeyShare (Extensions u2)).2 (x25519KeyShare fields) = inr exts ->
  let hello :=
    set_Extensions exts
      (set_HelloSessionId (copy (zeros 32) (sessionId fields)) u2) in
  let r := BuildHandshakeState hello w1 in
  buildClientHello b fields st =
    Ok (match r.1.2 with Some _ => [] | None => HelloRaw r.1.1 end, r.1.2)
       (mkState r.2
          (log st ++ [EvBuildHandshakeState (serverName fields);
                      EvBuildHandshakeState (ServerName u2)])) /\
  length (HelloSessionId hello) = 32%nat /\
  HelloSessionId hello =
    firstn 32 (sessionId fields) ++ zeros (32 - length (sessionId fields)) /\
  (length (sessionId fields) = 32%nat -> HelloSessionId hello = sessionId fields) /\
  HelloRandom hello = HelloRandom u2 /\
  Extensions hello = exts /\ length exts = length (Extensions u2).
Proof.
  intros Hb Hr Ho hello r.
  assert (Hsid : HelloSessionId hello = copy (zeros 32) (sessionId fields)) by reflexivity.
  assert (Hcopy : copy (zeros 32) (sessionId fields) =
                  firstn 32 (sessionId fields) ++ zeros (32 - length (sessionId fields))).
  { unfold copy. rewrite skipn_zeros. unfold zeros at 1. rewrite repeat_length.
    reflexivity. }
  split.
  { unfold buildClientHello, buildState, bind, emit, liftW.
    cbn -[findKeyShare overwriteKeyShare copy zeros].
    rewrite Hb. cbn -[findKeyShare overwriteKeyShare copy zeros].
    rewrite Hr. cbn -[findKeyShare overwriteKeyShare copy zeros].
    destruct (findKeyShare (Extensions u2)) as [ei ki] eqn:Ef. cbn [fst snd] in Ho.
    rewrite Ho. cbn -[copy zeros]. fold hello.
    subst r. destruct (BuildHandshakeState hello w1) as [[u3 e3] w3].
    cbn -[copy zeros]. rewrite <- app_assoc. destruct e3; reflexivity. }
  split; [rewrite Hsid, copy_length; apply repeat_length|].
  split; [rewrite Hsid; exact Hcopy|].
  split.
  { intros Hl. rewrite Hsid, Hcopy, Hl, Nat.sub_diag. cbn [zeros repeat].
    rewrite app_nil_r. apply firstn_all2. lia. }
  split; [reflexivity|]. split; [reflexivity|].
  exact (overwriteKeyShare_length _ _ _ _ _ Ho).
Qed.

Lemma buildClientHello_trace b fields (st st' : state) ch err :
  buildClientHello b fields st = Ok (ch, err) st' ->
  (err <> None /\
   log st' = log st ++ [EvBuildHandshakeState (serverName fields)]) \/
  exists name2,
    log st' = log st ++ [EvBuildHandshakeState (serverName fields);
                         EvBuildHandshakeState name2].
Proof.
  unfold buildClientHello, buildState, bind, emit, liftW.
  cbn -[findKeyShare overwriteKeyShare copy zeros].
  destruct (BuildHandshakeState _ (world st)) as [[u1 e1] w1].
  cbn -[findKeyShare overwriteKeyShare copy zeros].
  destruct e1 as [e|].
  { intros [= <- <- <-]. left. split; [discriminate|reflexivity]. }
  destruct (SetClientRandom (random fields) u1) as [u2 [e|]].
  { intros [= <- <- <-]. left. split; [discriminate|reflexivity]. }
  destruct (findKeyShare _) as [ei ki].
  destruct (overwriteKeyShare _ ei ki _) as [p|exts]; [discriminate|].
  cbn -[copy zeros].
  destruct (BuildHandshakeState _ w1) as [[u3 e3] w3]. cbn -[copy zeros].
  destruct e3 as [e|]; intros [= <- <- <-];
    right; eexists; rewrite <- app_assoc; reflexivity.
Qed.

(** X17. buildClientHello never returns bytes together with an error: a
    non-nil error comes with an empty slice. It asks utls to build at most
    twice, first under fields.serverName, and a nil error means it built
    twice. *)
Theorem buildClientHello_result b fields (st st' : state) ch err :
  buildClientHello b fields st = Ok (ch, err) st' ->
  (err <> None -> ch = []) /\
  ((err <> None /\
    log st' = log st ++ [EvBuildHandshakeState (serverName fields)]) \/
   exists name2,
     log st' = log st ++ [EvBuildHandshakeState (serverName fields);
                          EvBuildHandshakeState name2]).
Proof.
  unfold buildClientHello, buildState, bind, emit, liftW.
  cbn -[findKeyShare overwriteKeyShare copy zeros].
  destruct (BuildHandshakeState _ (world st)) as [[u1 e1] w1].
  cbn -[findKeyShare overwriteKeyShare copy zeros].
  destruct e1 as [e|].
  { intros [= <- <- <-]. split; [reflexivity|]. left. split; [discriminate|reflexivity]. }
  destruct (SetClientRandom (random fields) u1) as [u2 [e|]].
  { intros [= <- <- <-]. split; [reflexivity|]. left. split; [discriminate|reflexivity]. }
  destruct (findKeyShare _) as [ei ki].
  destruct (overwriteKeyShare _ ei ki _) as [p|exts]; [discriminate|].
  cbn -[copy zeros].
  destruct (BuildHandshakeState _ w1) as [[u3 e3] w3]. cbn -[copy zeros].
  destruct e3 as [e|]; intros [= <- <- <-]; (split; [try reflexivity; congruence|]);
    right; eexists; rewrite <- app_assoc; reflexivity.
Qed.

(** ** helloFields *)

(** X18. The fields of the hello carry the authentication payload whole:
    the random is the ephemeral public key, and for a 64-byte ciphertext
    the session id and the key share are its two halves, 32 bytes each, so
    that one after the other they are the ciphertext again; the server
    name plays no part in them. *)
Theorem helloFields_carry_payload (authInfo : AuthInfo) payload (st st' : state) fields :
  helloFields authInfo payload st = Ok fields st' ->
  random fields = randPubKey payload /\
  sessionId fields = firstn 32 (ciphertextWithTag payload) /\
  x25519KeyShare fields = firstn 32 (skipn 32 (ciphertextWithTag payload)) /\
  (length (ciphertextWithTag payload) = 64%nat ->
   sessionId fields ++ x25519KeyShare fields = ciphertextWithTag payload /\
   length (sessionId fields) = 32%nat /\ length (x25519KeyShare fields) = 32%nat).
Proof.
  unfold helloFields. cbn [serverName].
  set (f0 := mkFields _ _ _ _).
  assert (H0 : forall f, (f = f0 \/ exists n, f = set_serverName n f0) ->
            random f = randPubKey payload /\
            sessionId f = firstn 32 (ciphertextWithTag payload) /\
            x25519KeyShare f = firstn 32 (skipn 32 (ciphertextWithTag payload)) /\
            (length (ciphertextWithTag payload) = 64%nat ->
             sessionId f ++ x25519KeyShare f = ciphertextWithTag payload /\
             length (sessionId f) = 32%nat /\ length (x25519KeyShare f) = 32%nat)).
  { intros f Hf.
    assert (E : random f = randPubKey payload /\
                sessionId f = firstn 32 (ciphertextWithTag payload) /\
                x25519KeyShare f = firstn 32 (skipn 32 (ciphertextWithTag payload))).
    { destruct Hf as [->|[n ->]]; cbn; unfold array_slice; auto. }
    destruct E as (E1 & E2 & E3). rewrite E2, E3.
    repeat split; auto.
    - rewrite (firstn_all2 (skipn 32 (ciphertextWithTag payload)))
        by (rewrite length_drop; lia).
      apply firstn_skipn.
    - rewrite length_take. lia.
    - rewrite length_take, length_drop. lia. }
  destruct (EqualFold (MockDomain authInfo) "random").
  - intros H. apply bind_inv in H as (name & st1 & _ & [= <- _]).
    apply H0. right. eauto.
  - intros [= <- _]. apply H0. left. reflexivity.
Qed.

(** ** Handshake, every way it can end *)

Ltac same_log :=
  repeat (rewrite <- app_assoc || rewrite <- app_comm_cons || cbn [app]);
  reflexivity.

Lemma sendHello_shape b (authInfo : AuthInfo) (st st1 : state) x :
  sendHello b authInfo st = Ok x st1 ->
  exists name1 more,
    (more = [] \/ exists name2, more = [EvBuildHandshakeState name2]) /\
    match x with
    | inl e =>
      log st1 = log st ++ EvBuildHandshakeState name1 :: more \/
      exists w,
        log st1 = log st ++ EvBuildHandshakeState name1 :: more ++ [EvWrite w] \/
        log st1 = log st ++ EvBuildHandshakeState name1 :: more ++ [EvWrite w; EvRead]
    | inr (buf, secret) =>
      length buf = 1024%nat /\
      (exists name2, more = [EvBuildHandshakeState name2]) /\
      exists w,
        log st1 = log st ++ EvBuildHandshakeState name1 :: more ++ [EvWrite w; EvRead]
    end.
Proof.
  unfold sendHello. intros H.
  apply bind_inv in H as ([payload secret] & st0 & H0 & H).
  assert (Hl0 : log st0 = log st).
  { unfold liftW in H0. destruct (makeAuthenticationPayload authInfo (world st)) as [[? ?] ?].
    injection H0 as _ _ <-. reflexivity. }
  destruct (helloFields_spec authInfo payload st0) as (fields & st2 & Hf & Hl2 & _).
  rewrite (bind_Ok _ _ _ _ _ Hf) in H.
  apply bind_inv in H as ([ch err] & st3 & Hb & H).
  apply buildClientHello_trace in Hb as Hlog.
  rewrite Hl2, Hl0 in Hlog.
  exists (serverName fields).
  destruct err as [e|].
  { injection H as <- <-.
    destruct Hlog as [[_ Hlog]|[name2 Hlog]].
    - exists []. split; [auto|]. left. exact Hlog.
    - exists [EvBuildHandshakeState name2]. split; [eauto|]. left. exact Hlog. }
  destruct Hlog as [[Hne _]|[name2 Hlog]]; [congruence|].
  exists [EvBuildHandshakeState name2]. split; [eauto|].
  unfold bind at 1 in H. rewrite Write_eq in H.
  destruct (connWrite (AddRecordLayer ch) (world st3)).1 as [e|].
  { injection H as <- <-. right. exists (AddRecordLayer ch). left.
    cbn [log]. rewrite Hlog, <- app_assoc. reflexivity. }
  unfold bind at 1 in H. rewrite Read_eq in H. cbn [world log] in H.
  match type of H with
  | context [tlsRead ?n ?w] => destruct (tlsRead n w) as [[data rerr] w5]
  end.
  cbn [fst snd] in H.
  destruct rerr as [e|]; injection H as <- <-.
  - right. exists (AddRecordLayer ch). right.
    cbn [log]. rewrite Hlog, <- !app_assoc. reflexivity.
  - split; [rewrite copy_length; apply repeat_length|]. split; [eauto|].
    exists (AddRecordLayer ch). cbn [log]. rewrite Hlog, <- !app_assoc. reflexivity.
Qed.

Lemma recoverAndDrain_shape (key0 buf secret : list byte) (st st' : state) key err :
  length buf = 1024%nat ->
  recoverAndDrain key0 buf secret st = Ok (key, err) st' ->
  exists nonce k ct,
    length nonce = 12%nat /\ length ct = 48%nat /\
    (((AESGCMDecrypt nonce k ct).2 <> None /\ err <> None /\ key = key0 /\
      log st' = log st ++ [EvDecrypt nonce k ct]) \/
     ((AESGCMDecrypt nonce k ct).2 = None /\
      key = copy key0 (AESGCMDecrypt nonce k ct).1 /\
      ((err <> None /\ log st' = log st ++ [EvDecrypt nonce k ct; EvRead]) \/
       log st' = log st ++ [EvDecrypt nonce k ct; EvRead; EvRead]))).
Proof.
  intros Hlen H. unfold recoverAndDrain in H.
  pose proof (recoverKey_spec buf (array_slice 0 32 secret) st Hlen) as Hk.
  cbv zeta in Hk.
  set (blob := array_slice 6 38 buf ++ array_slice 84 116 buf) in *.
  set (nonce := firstn 12 blob) in *.
  set (ct := firstn 48 (skipn 12 blob)) in *.
  assert (Hblob : length blob = 64%nat) by (apply blob_length, Hlen).
  exists nonce, (array_slice 0 32 secret), ct.
  split; [unfold nonce; rewrite length_take; lia|].
  split; [unfold ct; rewrite length_take, length_drop; lia|].
  rewrite (bind_Ok _ _ _ _ _ Hk) in H.
  destruct (AESGCMDecrypt nonce (array_slice 0 32 secret) ct) as [plain derr].
  cbn [fst snd] in *.
  destruct derr as [e|].
  { injection H as <- <- <-. left. repeat split; try discriminate. }
  right. split; [reflexivity|].
  cbn [drain] in H. unfold bind at 1 2 in H. rewrite Read_eq in H. cbn [world log] in H.
  match type of H with
  | context [tlsRead ?n ?w] => destruct (tlsRead n w) as [[d1 e1] w1]
  end.
  cbn [fst snd] in H. destruct e1 as [e|].
  { injection H as <- <- <-. split; [reflexivity|]. left.
    split; [discriminate|]. cbn [log]. rewrite <- app_assoc. reflexivity. }
  unfold bind at 1 in H. rewrite Read_eq in H. cbn [world log] in H.
  match type of H with
  | context [tlsRead ?n ?w] => destruct (tlsRead n w) as [[d2 e2] w2]
  end.
  cbn [fst snd] in H.
  destruct e2 as [e|]; injection H as <- <- <-; (split; [reflexivity|]); right;
    cbn [log]; rewrite <- !app_assoc; reflexivity.
Qed.

(** X19. Every way Handshake can return. utls is asked to build once or
    twice; then, in this order and each only after the one before went
    through: one Write, one Read, one decryption (of a 12-byte nonce and 48
    bytes), two more Reads. An error at any point ends the call there. The
    returned key has 32 bytes; it is all zeros unless the decryption
    succeeded, and then it is the first 32 bytes of the plaintext, also
    when one of the last two reads fails. A nil error comes only with the
    full sequence. *)
Theorem Handshake_outcomes b (authInfo : AuthInfo) (st st' : state) key err :
  Handshake b authInfo st = Ok (key, err) st' ->
  length key = 32%nat /\
  exists name1 more,
    (more = [] \/ exists name2, more = [EvBuildHandshakeState name2]) /\
    let builds := EvBuildHandshakeState name1 :: more in
    ((err <> None /\ key = zeros 32 /\
      (log st' = log st ++ builds \/
       exists w,
         log st' = log st ++ builds ++ [EvWrite w] \/
         log st' = log st ++ builds ++ [EvWrite w; EvRead] \/
         exists nonce k ct,
           (AESGCMDecrypt nonce k ct).2 <> None /\
           log st' = log st ++ builds ++ [EvWrite w; EvRead; EvDecrypt nonce k ct])) \/
     (exists w nonce k ct,
        length nonce = 12%nat /\ length ct = 48%nat /\
        (AESGCMDecrypt nonce k ct).2 = None /\
        key = firstn 32 (AESGCMDecrypt nonce k ct).1
              ++ zeros (32 - length (AESGCMDecrypt nonce k ct).1) /\
        ((err <> None /\
          log st' = log st ++ builds ++
                    [EvWrite w; EvRead; EvDecrypt nonce k ct; EvRead]) \/
         log st' = log st ++ builds ++
                   [EvWrite w; EvRead; EvDecrypt nonce k ct; EvRead; EvRead]))).
Proof.
  unfold Handshake. intros H.
  apply bind_inv in H as (x & st1 & Hs & H).
  destruct (sendHello_shape _ _ _ _ _ Hs) as (name1 & more & Hmore & Hx).
  destruct x as [e|[buf secret]].
  - injection H as <- <- <-. split; [apply repeat_length|].
    exists name1, more. split; [exact Hmore|]. left.
    split; [discriminate|]. split; [reflexivity|].
    destruct Hx as [Hx|[w [Hx|Hx]]]; [left; exact Hx|right; exists w; auto..].
  - destruct Hx as (Hlen & _ & w & Hlog).
    destruct (recoverAndDrain_shape _ _ _ _ _ _ _ Hlen H)
      as (nonce & k & ct & Hn & Hc & Hcases).
    assert (Hcopy : forall l : list byte,
              copy (zeros 32) l = firstn 32 l ++ zeros (32 - length l)).
    { intros l. unfold copy. rewrite skipn_zeros. unfold zeros at 1.
      rewrite repeat_length. reflexivity. }
    destruct Hcases as [(Hd & He & -> & Hl) | (Hd & -> & Hl)].
    + split; [apply repeat_length|]. exists name1, more. split; [exact Hmore|].
      left. split; [exact He|]. split; [reflexivity|].
      right. exists w. right; right. exists nonce, k, ct. split; [exact Hd|].
      rewrite Hl, Hlog. same_log.
    + split; [rewrite copy_length; apply repeat_length|].
      exists name1, more. split; [exact Hmore|]. right.
      exists w, nonce, k, ct. split; [exact Hn|]. split; [exact Hc|].
      split; [exact Hd|]. split; [apply Hcopy|].
      destruct Hl as [[He Hl]|Hl]; [left; split; [exact He|]|right];
        rewrite Hl, Hlog; same_log.
Qed.

End WithWorld.

(** ** In the small world *)

Import Demo.

Lemma generateSNI_round_trip_witness :
  Uint16 (generateSNI "example.com") = Some 14 /\
  string_of_list_byte (skipn 5 (generateSNI "example.com")) = "example.com"%string.
Proof.
  destruct (generateSNI_round_trip "example.com") as (_ & _ & H).
  destruct H as (H1 & _ & _ & H4); [cbn; lia|].
  split; [exact H1 | exact H4].
Defined.

Lemma overwriteKeyShare_one_entry_witness :
  exists exts',
    overwriteKeyShare profile 1 1 (repeat Byte.x04 32) = inr exts' /\
    length exts' = length profile.
Proof.
  pose proof (overwriteKeyShare_one_entry profile 1 1 (repeat Byte.x04 32)) as H.
  destruct (overwriteKeyShare profile 1 1 (repeat Byte.x04 32)) as [p|exts'] eqn:E.
  - exfalso. vm_compute in E. discriminate E.
  - destruct H as (ks & k & _ & _ & Hlen & _). exists exts'. split; [reflexivity|exact Hlen].
Defined.

Lemma key_share_is_overwritten_witness :
  overwriteKeyShare profile (findKeyShare profile).1 (findKeyShare profile).2
    (repeat Byte.x04 32) =
    inr [OtherExtension 0;
         KeyShareExtension [mkKeyShare 2570 [Byte.x00];
                            mkKeyShare X25519 (repeat Byte.x04 32)];
         OtherExtension 43].
Proof.
  refine (proj1 (key_share_is_overwritten profile 1
                   [mkKeyShare 2570 [Byte.x00]; mkKeyShare X25519 (repeat Byte.x00 32)]
                   1 (mkKeyShare X25519 (repeat Byte.x00 32)) (repeat Byte.x04 32)
                   eq_refl _ eq_refl eq_refl _)).
  - intros m' x Hlt Hx.
    destruct m' as [|[|[|m']]]; try lia; try discriminate Hx.
    injection Hx as <-. reflexivity.
  - intros j' k' Hlt Hj. destruct j' as [|[|j']]; try lia. discriminate Hj.
Defined.

Lemma key_share_index_is_stale_witness :
  findKeyShare twoKeyShareExtensions = (2%nat, 1%nat) /\
  overwriteKeyShare twoKeyShareExtensions 2 1 (repeat Byte.x04 32)
    = inl (IndexOutOfRange 1 1).
Proof.
  destruct (key_share_index_is_stale [OtherExtension 0]
              [mkKeyShare 2570 [Byte.x00]; mkKeyShare X25519 (repeat Byte.x00 32)]
              [KeyShareExtension [mkKeyShare 23 (repeat Byte.x00 65)]]
              0 [mkKeyShare 23 (repeat Byte.x00 65)] 1
              (mkKeyShare X25519 (repeat Byte.x00 32)) (repeat Byte.x04 32))
    as (H1 & _ & H3).
  - repeat constructor.
  - reflexivity.
  - reflexivity.
  - intros j' k' Hlt Hj. destruct j' as [|[|j']]; try lia. discriminate Hj.
  - repeat constructor; discriminate.
  - reflexivity.
  - intros m' x Hlt Hx. destruct m' as [|m']; [lia|discriminate Hx].
  - split; [exact H1 | exact H3].
Defined.

Lemma randInt_draws_witness :
  exists v (st' : @state TestWorld), randInt 10 st0 = Ok v st' /\ 0 <= v < 10.
Proof.
  destruct (randInt_draws 10 st0) as (_ & H & _).
  destruct H as (v & st' & H1 & H2 & _); [lia|].
  exists v, st'. split; [exact H1 | exact H2].
Defined.

Lemma buildClientHello_fills_hello_witness :
  exists ch (st' : @state TestWorld),
    buildClientHello chrome exampleFields st0 = Ok (ch, None) st' /\
    log st' = [EvBuildHandshakeState "example.com"; EvBuildHandshakeState "example.com"].
Proof.
  destruct (buildClientHello_fills_hello chrome exampleFields st0
              built1 world0 built2 overwritten) as (H & _).
  - vm_compute. reflexivity.
  - vm_compute. reflexivity.
  - vm_compute. reflexivity.
  - eexists _, _. split; [exact H | reflexivity].
Defined.

Lemma buildClientHello_result_witness :
  match buildClientHello chrome exampleFields st0 with
  | Ok (ch, err) _ => err <> None -> ch = []
  | Panic _ => False
  end.
Proof.
  destruct (buildClientHello chrome exampleFields st0) as [[ch err] st'|p] eqn:H.
  - exact (proj1 (buildClientHello_result chrome exampleFields st0 st' ch err H)).
  - vm_compute in H. discriminate H.
Defined.

Lemma helloFields_carry_payload_witness :
  match helloFields (domain "example.com")
          (mkPayload (repeat Byte.x01 32) (repeat Byte.x02 64)) st0 with
  | Ok fields _ => sessionId fields ++ x25519KeyShare fields = repeat Byte.x02 64
  | Panic _ => False
  end.
Proof.
  destruct (helloFields (domain "example.com")
              (mkPayload (repeat Byte.x01 32) (repeat Byte.x02 64)) st0)
    as [fields st'|p] eqn:H.
  - destruct (helloFields_carry_payload _ _ _ _ _ H) as (_ & _ & _ & Hsplit).
    exact (proj1 (Hsplit eq_refl)).
  - vm_compute in H. discriminate H.
Defined.

Lemma Handshake_outcomes_witness :
  match Handshake chrome (domain "example.com") stServed with
  | Ok (key, _) _ => length key = 32%nat
  | Panic _ => False
  end.
Proof.
  destruct (Handshake chrome (domain "example.com") stServed) as [[key err] st'|p] eqn:H.
  - exact (proj1 (Handshake_outcomes chrome (domain "example.com") stServed st' key err H)).
  - vm_compute in H. discriminate H.
Defined.

End HandshakeMore.
